(** * SearchTogether: the TreasureHunt ledger and the distance check

    A shallow embedding of
    - the Solidity contract [TreasureHunt] (hunt ledger, claim adjudication,
      time-gated withdrawals),
    - the circom template [DistanceCheck] of [circuits/treasure_claim.circom],
    - the helpers [distanceSquared] and [isWithinRadius] of [utils/gps.js].

    Conventions.  A [uint256] is an [N] together with the checked arithmetic
    of Solidity 0.8: an addition or multiplication whose result does not fit
    in 256 bits aborts the call with [Panic 0x11].  A Solidity [mapping] is a
    [gmap] read with the zero value as default.  A call either reverts
    ([Err]) and leaves the storage as it was, or returns the new storage
    together with the actions it asks the chain to carry out: the Ether
    transfers and the events, in program order.  Carrying out a transfer is
    the chain's job and is not part of the contract storage modelled here. *)

From Stdlib Require Import NArith ZArith String List Lia.
From Stdlib Require Import Ascii HexString.
From stdpp Require Import base option gmap fin_maps.
Import ListNotations.

Local Open Scope N_scope.

(** ** Checked 256-bit arithmetic and the result monad *)

Definition MAX_UINT256 : N := 2 ^ 256 - 1.

Inductive Error :=
| Revert (reason : string)
| Panic (code : N).

Inductive result (A : Type) :=
| Ok (a : A)
| Err (e : Error).
Arguments Ok {A} a.
Arguments Err {A} e.

#[global] Instance result_ret : MRet result := fun _ a => Ok a.
#[global] Instance result_bind : MBind result := fun _ _ f m =>
  match m with
  | Ok a => f a
  | Err e => Err e
  end.

Definition is_ok {A} (r : result A) : bool :=
  match r with Ok _ => true | Err _ => false end.

(** [require(cond, "reason")] *)
Definition require (cond : bool) (reason : string) : result unit :=
  if cond then Ok tt else Err (Revert reason).

(** Arithmetic overflow is [Panic(0x11)]. *)
Definition checked_add (a b : N) : result N :=
  if a + b <=? MAX_UINT256 then Ok (a + b) else Err (Panic 17).

Definition checked_mul (a b : N) : result N :=
  if a * b <=? MAX_UINT256 then Ok (a * b) else Err (Panic 17).

(** ** Storage layout of [TreasureHunt] *)

Inductive HuntStatus := Active | Claimed | Expired.

#[global] Instance HuntStatus_eq_dec : EqDecision HuntStatus.
Proof. solve_decision. Defined.

Definition status_eqb (a b : HuntStatus) : bool := bool_decide (a = b).

Record Hunt := mkHunt {
  hider : N;
  locationCommitment : N;
  initialPrize : N;
  createdAt : N;
  claimableAfter : N;
  expiresAt : N;
  hintPrice : N;
  status : HuntStatus
}.

Record Claim := mkClaim {
  claimer : N;
  claimTime : N;
  lastWithdrawal : N;
  totalWithdrawn : N
}.

(** The value a mapping returns for a key never written. *)
Definition hunt0 : Hunt := mkHunt 0 0 0 0 0 0 0 Active.
Definition claim0 : Claim := mkClaim 0 0 0 0.

Definition COORDINATE_SCALE : N := 1000000.
Definition RADIUS_SCALED : N := 100.
Definition WITHDRAWAL_INTERVAL : N := 86400.
Definition WITHDRAWAL_PERCENT : N := 50.
Definition MIN_HIDER_LOCKOUT : N := 0.
Definition MAX_HUNT_DURATION : N := 90 * 86400.

Record State := mkState {
  huntCounter : N;
  hunts : gmap N Hunt;
  claims : gmap N Claim;
  contributions : gmap N (gmap N N);
  hasPurchasedHint : gmap N (gmap N bool);
  totalContributions : gmap N N
}.

(** The freshly deployed contract. *)
Definition init : State := mkState 0 ∅ ∅ ∅ ∅ ∅.

(** Mapping reads. *)
Definition hunt_at (s : State) (id : N) : Hunt := default hunt0 (hunts s !! id).
Definition claim_at (s : State) (id : N) : Claim := default claim0 (claims s !! id).
Definition contributions_of (s : State) (id : N) : gmap N N :=
  default ∅ (contributions s !! id).
Definition contribution_at (s : State) (id who : N) : N :=
  default 0 (contributions_of s id !! who).
Definition purchased_of (s : State) (id : N) : gmap N bool :=
  default ∅ (hasPurchasedHint s !! id).
Definition purchased_at (s : State) (id who : N) : bool :=
  default false (purchased_of s id !! who).
Definition total_at (s : State) (id : N) : N :=
  default 0 (totalContributions s !! id).

(** Mapping writes, one per storage variable. *)
Definition set_hunt (s : State) (id : N) (h : Hunt) : State :=
  mkState (huntCounter s) (<[id := h]> (hunts s)) (claims s) (contributions s)
          (hasPurchasedHint s) (totalContributions s).
Definition set_claim (s : State) (id : N) (c : Claim) : State :=
  mkState (huntCounter s) (hunts s) (<[id := c]> (claims s)) (contributions s)
          (hasPurchasedHint s) (totalContributions s).
Definition set_contribution (s : State) (id who v : N) : State :=
  mkState (huntCounter s) (hunts s) (claims s)
          (<[id := <[who := v]> (contributions_of s id)]> (contributions s))
          (hasPurchasedHint s) (totalContributions s).
Definition set_purchased (s : State) (id who : N) (b : bool) : State :=
  mkState (huntCounter s) (hunts s) (claims s) (contributions s)
          (<[id := <[who := b]> (purchased_of s id)]> (hasPurchasedHint s))
          (totalContributions s).
Definition set_total (s : State) (id v : N) : State :=
  mkState (huntCounter s) (hunts s) (claims s) (contributions s)
          (hasPurchasedHint s) (<[id := v]> (totalContributions s)).
Definition set_huntCounter (s : State) (n : N) : State :=
  mkState n (hunts s) (claims s) (contributions s)
          (hasPurchasedHint s) (totalContributions s).

(** Field writes through a storage pointer. *)
Definition with_status (h : Hunt) (st : HuntStatus) : Hunt :=
  mkHunt (hider h) (locationCommitment h) (initialPrize h) (createdAt h)
         (claimableAfter h) (expiresAt h) (hintPrice h) st.
Definition with_withdrawal (c : Claim) (last total : N) : Claim :=
  mkClaim (claimer c) (claimTime c) last total.

(** ** The verifier interface *)

(** A Groth16 proof as passed to [verifyProof]: [_pA], [_pB], [_pC]. *)
Record Proof := mkProof {
  pA : N * N;
  pB : (N * N) * (N * N);
  pC : N * N
}.

(** [interface IVerifier]; the single public signal is the claim commitment. *)
Class IVerifier := { verifyProof : Proof -> N -> bool }.

(** [contract MockVerifier]: always returns true. *)
Definition MockVerifier : IVerifier := {| verifyProof := fun _ _ => true |}.

(** ** Calls, actions and events *)

(** What a call sees of its transaction: [msg.sender] and [block.timestamp]. *)
Record Env := mkEnv {
  msg_sender : N;
  block_timestamp : N
}.

Inductive Event :=
| HuntCreated (huntId hider0 locationCommitment0 prize claimableAfter0 : N)
| HintPurchased (huntId seeker amount : N)
| ClaimSubmitted (huntId claimer0 : N)
| Withdrawal (huntId claimer0 amount : N)
| HuntExpired (huntId : N).

Inductive Action :=
| Transfer (to amount : N)
| Emit (ev : Event).

(** ** The contract functions *)

Section TreasureHunt.
Context {verifier : IVerifier}.

(** [getPotBalance]: initial prize + contributions - withdrawals, floored at 0. *)
Definition getPotBalance (s : State) (_huntId : N) : result N :=
  let hunt := hunt_at s _huntId in
  let claim := claim_at s _huntId in
  totalPot ← checked_add (initialPrize hunt) (total_at s _huntId);
  let withdrawn := totalWithdrawn claim in
  Ok (if withdrawn <? totalPot then totalPot - withdrawn else 0).

(** [createHunt]; [msg_value] is the Ether sent with the call.  The third
    component of the result is the returned hunt id. *)
Definition createHunt (s : State) (e : Env) (msg_value : N)
    (_locationCommitment _lockoutPeriod _duration _hintPrice : N)
  : result (State * list Action * N) :=
  require (0 <? msg_value) "Must deposit prize";;
  require (MIN_HIDER_LOCKOUT <=? _lockoutPeriod) "Lockout too short";;
  require (_duration <=? MAX_HUNT_DURATION) "Duration too long";;
  require (_lockoutPeriod <? _duration) "Duration must exceed lockout";;
  let huntId := huntCounter s in
  next ← checked_add (huntCounter s) 1;
  claimable ← checked_add (block_timestamp e) _lockoutPeriod;
  expires ← checked_add (block_timestamp e) _duration;
  let hunt := mkHunt (msg_sender e) _locationCommitment msg_value
                     (block_timestamp e) claimable expires _hintPrice Active in
  Ok (set_hunt (set_huntCounter s next) huntId hunt,
      [Emit (HuntCreated huntId (msg_sender e) _locationCommitment msg_value claimable)],
      huntId).

(** [purchaseHint]; payable. *)
Definition purchaseHint (s : State) (e : Env) (msg_value : N) (_huntId : N)
  : result (State * list Action) :=
  let hunt := hunt_at s _huntId in
  require (status_eqb (status hunt) Active) "Hunt not active";;
  require (hintPrice hunt <=? msg_value) "Insufficient payment";;
  require (negb (purchased_at s _huntId (msg_sender e))) "Already purchased";;
  c ← checked_add (contribution_at s _huntId (msg_sender e)) msg_value;
  t ← checked_add (total_at s _huntId) msg_value;
  let s1 := set_contribution s _huntId (msg_sender e) c in
  let s2 := set_total s1 _huntId t in
  let s3 := set_purchased s2 _huntId (msg_sender e) true in
  Ok (s3, [Emit (HintPurchased _huntId (msg_sender e) msg_value)]).

(** [claimTreasure].  The commented-out commitment check of the source is
    absent here as it is there: only the verifier sees [_claimCommitment]. *)
Definition claimTreasure (s : State) (e : Env) (_huntId : N)
    (proof : Proof) (_claimCommitment : N) : result (State * list Action) :=
  let hunt := hunt_at s _huntId in
  require (status_eqb (status hunt) Active) "Hunt not active";;
  require (claimableAfter hunt <=? block_timestamp e) "Still in lockout period";;
  require (block_timestamp e <? expiresAt hunt) "Hunt expired";;
  require (claimer (claim_at s _huntId) =? 0) "Already claimed";;
  require (verifyProof proof _claimCommitment) "Invalid proof";;
  let s1 := set_claim s _huntId (mkClaim (msg_sender e) (block_timestamp e) 0 0) in
  let s2 := set_hunt s1 _huntId (with_status hunt Claimed) in
  Ok (s2, [Emit (ClaimSubmitted _huntId (msg_sender e))]).

(** The third [require] of [withdraw]: [||] does not evaluate the sum when
    [lastWithdrawal] is zero. *)
Definition interval_elapsed (claim : Claim) (now : N) : result bool :=
  if lastWithdrawal claim =? 0 then Ok true
  else (due ← checked_add (lastWithdrawal claim) WITHDRAWAL_INTERVAL;
        Ok (due <=? now)).

(** The amount computed by [withdraw] from the pot balance. *)
Definition withdrawAmount_of (balance : N) : result N :=
  scaled ← checked_mul balance WITHDRAWAL_PERCENT;
  let withdrawAmount := scaled / 100 in
  Ok (if withdrawAmount =? 0 then balance else withdrawAmount).

(** [withdraw] *)
Definition withdraw (s : State) (e : Env) (_huntId : N)
  : result (State * list Action) :=
  let hunt := hunt_at s _huntId in
  let claim := claim_at s _huntId in
  require (status_eqb (status hunt) Claimed) "Not claimed";;
  require (claimer claim =? msg_sender e) "Not the claimer";;
  elapsed ← interval_elapsed claim (block_timestamp e);
  require elapsed "Withdrawal too soon";;
  balance ← getPotBalance s _huntId;
  require (0 <? balance) "No funds remaining";;
  withdrawAmount ← withdrawAmount_of balance;
  withdrawn ← checked_add (totalWithdrawn claim) withdrawAmount;
  let s1 := set_claim s _huntId (with_withdrawal claim (block_timestamp e) withdrawn) in
  Ok (s1, [Transfer (msg_sender e) withdrawAmount;
           Emit (Withdrawal _huntId (msg_sender e) withdrawAmount)]).

(** [expireHunt] *)
Definition expireHunt (s : State) (e : Env) (_huntId : N)
  : result (State * list Action) :=
  let hunt := hunt_at s _huntId in
  require (status_eqb (status hunt) Active) "Not active";;
  require (expiresAt hunt <=? block_timestamp e) "Not expired yet";;
  let s1 := set_hunt s _huntId (with_status hunt Expired) in
  balance ← getPotBalance s1 _huntId;
  Ok (s1, (if 0 <? balance then [Transfer (hider hunt) balance] else [])
          ++ [Emit (HuntExpired _huntId)]).


(** ** Transactions *)

(** The external calls.  Only [createHunt] and [purchaseHint] are payable
    and carry a [msg_value]; the other functions cannot be sent Ether. *)
Inductive Call :=
| CreateHunt (msg_value _locationCommitment _lockoutPeriod _duration _hintPrice : N)
| PurchaseHint (msg_value _huntId : N)
| ClaimTreasure (_huntId : N) (proof : Proof) (_claimCommitment : N)
| Withdraw (_huntId : N)
| ExpireHunt (_huntId : N).

Definition is_registration (c : Call) : bool :=
  match c with CreateHunt _ _ _ _ _ => true | _ => false end.

Definition exec (s : State) (e : Env) (c : Call) : result (State * list Action) :=
  match c with
  | CreateHunt v lc lock dur price =>
      '(s', acts, _) ← createHunt s e v lc lock dur price; Ok (s', acts)
  | PurchaseHint v id => purchaseHint s e v id
  | ClaimTreasure id proof cc => claimTreasure s e id proof cc
  | Withdraw id => withdraw s e id
  | ExpireHunt id => expireHunt s e id
  end.

(** A transaction is atomic: a reverted call leaves the storage untouched. *)
Definition transact (s : State) (tx : Env * Call) : State :=
  match exec s (fst tx) (snd tx) with
  | Ok (s', _) => s'
  | Err _ => s
  end.

Definition run (s : State) (txs : list (Env * Call)) : State :=
  fold_left transact txs s.

(** The ledger states that some sequence of transactions leads to. *)
Definition reachable_from (s s' : State) : Prop := exists txs, run s txs = s'.
Definition reachable (s : State) : Prop := reachable_from init s.


(** The hunt a call works on; a registration works on the id it allocates. *)
Definition target (s : State) (c : Call) : N :=
  match c with
  | CreateHunt _ _ _ _ _ => huntCounter s
  | PurchaseHint _ id => id
  | ClaimTreasure id _ _ => id
  | Withdraw id => id
  | ExpireHunt id => id
  end.

(** The sum of the per-identity contributions of one hunt. *)
Definition contribSum (m : gmap N N) : N :=
  map_fold (fun _ v acc => v + acc) 0 m.

End TreasureHunt.

(** ** [utils/gps.js]

    Scaled coordinates are integers; the JavaScript numbers that carry them
    are modelled as [Z]. *)

Module Gps.
Local Open Scope Z_scope.

Definition COORDINATE_SCALE : Z := 1000000.
Definition RADIUS_SCALED : Z := 100.
Definition RADIUS_SQUARED : Z := RADIUS_SCALED * RADIUS_SCALED.

Definition distanceSquared (lat1 lon1 lat2 lon2 : Z) : Z :=
  let latDiff := lat1 - lat2 in
  let lonDiff := lon1 - lon2 in
  latDiff * latDiff + lonDiff * lonDiff.

Definition isWithinRadius (lat1 lon1 lat2 lon2 : Z) : bool :=
  let distSq := distanceSquared lat1 lon1 lat2 lon2 in
  distSq <=? RADIUS_SQUARED.

End Gps.

(** ** [circuits/treasure_claim.circom]

    A signal is an element of the scalar field of BN254, kept as its
    representative in [[0, p)].  A template is a partial function from its
    input signals to its output signal: [None] means that no witness
    satisfies the constraints for these inputs, so that no proof can be
    built from them. *)

Module Circuit.
Local Open Scope Z_scope.

Definition p : Z :=
  21888242871839275222246405745257275088548364400416034343698204186575808495617.

(** An integer input as a signal; negative coordinates wrap around. *)
Definition F (z : Z) : Z := z mod p.

(** circomlib's [Num2Bits(n)] (the repository includes it from
    [node_modules]): [out[i] <-- (in >> i) & 1], [lc1 += out[i] * e2] with
    [e2] doubling from 1, and the constraint [lc1 === in]. *)
Definition Num2Bits_out (n : nat) (inp : Z) : list Z :=
  map (fun i => Z.land (Z.shiftr inp (Z.of_nat i)) 1) (seq 0 n).

Fixpoint Num2Bits_lc (e2 : Z) (out : list Z) : Z :=
  match out with
  | [] => 0
  | b :: out' => b * e2 + Num2Bits_lc (e2 + e2) out'
  end.

Definition Num2Bits (n : nat) (inp : Z) : option (list Z) :=
  let out := Num2Bits_out n inp in
  if F (Num2Bits_lc 1 out) =? inp then Some out else None.

(** circomlib's [LessThan(n)]: [n2b.in <== in[0] + (1<<n) - in[1]] and
    [out <== 1 - n2b.out[n]]. *)
Definition LessThan (n : nat) (in0 in1 : Z) : option Z :=
  out ← Num2Bits (n + 1) (F (in0 + Z.shiftl 1 (Z.of_nat n) - in1));
  Some (F (1 - nth n out 0)).

(** [template DistanceCheck()]; the result is the signal [withinRange]. *)
Definition DistanceCheck (myLat myLon targetLat targetLon maxDistSquared : Z)
  : option Z :=
  let latDiff := F (myLat - targetLat) in
  let lonDiff := F (myLon - targetLon) in
  let latDiffSquared := F (latDiff * latDiff) in
  let lonDiffSquared := F (lonDiff * lonDiff) in
  let distSquared := F (latDiffSquared + lonDiffSquared) in
  LessThan 64 distSquared maxDistSquared.

Section TreasureClaim.
(** circomlib's [Poseidon(1)] and [Poseidon(3)], kept abstract. *)
Variable Poseidon1 : Z -> Z.
Variable Poseidon3 : Z -> Z -> Z -> Z.

(** [template TreasureClaim()]; the result is the public output
    [claimCommitment]. *)
Definition TreasureClaim
    (secret gpsLat gpsLon targetLat targetLon radiusSquared claimerAddress : Z)
  : option Z :=
  let locationCommitment := Poseidon3 targetLat targetLon radiusSquared in
  withinRange ← DistanceCheck gpsLat gpsLon targetLat targetLon radiusSquared;
  if withinRange =? 1 then
    let secretHash := Poseidon1 secret in
    Some (Poseidon3 locationCommitment secretHash claimerAddress)
  else None.

End TreasureClaim.

(** The distance constraint evaluator on scaled integer coordinates: the
    finder's position passes when a witness exists and [withinRange] is 1. *)
Definition accepts (gpsLat gpsLon targetLat targetLon radiusSquared : Z) : bool :=
  match DistanceCheck (F gpsLat) (F gpsLon) (F targetLat) (F targetLon)
                      (F radiusSquared) with
  | Some 1 => true
  | _ => false
  end.

(** The range of a scaled coordinate: 180 degrees either way covers both
    latitudes and longitudes. *)
Definition coordinate (x : Z) : Prop := - 180000000 <= x <= 180000000.

End Circuit.

(** ** Notions used to state the properties *)

(** The pot as [getPotBalance] computes it from the stored numbers. *)
Definition pot_of (prize total withdrawn : N) : N :=
  if withdrawn <? prize + total then prize + total - withdrawn else 0.

(** The release of one withdrawal in the words of the specification:
    [floor(potBalance * percent / 100)], and the whole balance when that
    floor is zero. *)
Definition release_of (balance : N) : N :=
  if balance * WITHDRAWAL_PERCENT / 100 =? 0 then balance
  else balance * WITHDRAWAL_PERCENT / 100.

(** A hunt record with another location commitment, and the ledger in which
    hunt [id] carries it. *)
Definition with_locationCommitment (h : Hunt) (lc : N) : Hunt :=
  mkHunt (hider h) lc (initialPrize h) (createdAt h)
         (claimableAfter h) (expiresAt h) (hintPrice h) (status h).
Definition replace_locationCommitment (s : State) (id lc : N) : State :=
  set_hunt s id (with_locationCommitment (hunt_at s id) lc).

(** What holds of the storage in every reachable state. *)
Record ledger_inv (s : State) : Prop := {
  inv_fresh : forall id, huntCounter s <= id ->
    hunt_at s id = hunt0 \/ hunt_at s id = with_status hunt0 Expired;
  inv_claim : forall id, status (hunt_at s id) <> Claimed -> claim_at s id = claim0;
  inv_withdrawn : forall id,
    totalWithdrawn (claim_at s id) <= initialPrize (hunt_at s id) + total_at s id;
  inv_total : forall id, total_at s id = contribSum (contributions_of s id);
  inv_registered : forall id, id < huntCounter s ->
    0 < initialPrize (hunt_at s id) /\
    createdAt (hunt_at s id) + MIN_HIDER_LOCKOUT <= claimableAfter (hunt_at s id) /\
    claimableAfter (hunt_at s id) < expiresAt (hunt_at s id)
}.

(** ** The views of the contract *)

(** What [getHunt] returns; [view_prize] is the third component, which the
    source fills with the current pot. *)
Record HuntView := mkHuntView {
  view_hider : N;
  view_locationCommitment : N;
  view_prize : N;
  view_claimableAfter : N;
  view_expiresAt : N;
  view_hintPrice : N;
  view_status : HuntStatus
}.

(** [getHunt] *)
Definition getHunt (s : State) (_huntId : N) : result HuntView :=
  let hunt := hunt_at s _huntId in
  currentPot ← getPotBalance s _huntId;
  Ok (mkHuntView (hider hunt) (locationCommitment hunt) currentPot
                 (claimableAfter hunt) (expiresAt hunt) (hintPrice hunt)
                 (status hunt)).



(** The hunt id an event carries. *)
Definition event_huntId (ev : Event) : N :=
  match ev with
  | HuntCreated id _ _ _ _ => id
  | HintPurchased id _ _ => id
  | ClaimSubmitted id _ => id
  | Withdrawal id _ _ => id
  | HuntExpired id => id
  end.


(** ** [scripts/withdraw.js] *)

Module WithdrawScript.

(** The amount the script announces before it calls [withdraw]:
    [(potBalance * 50n) / 100n], on unbounded integers. *)
Definition withdrawAmount (potBalance : N) : N := potBalance * 50 / 100.

End WithdrawScript.

(** ** [utils/hash.js]: addresses as integers

    JavaScript strings are modelled as ASCII strings and a [BigInt] as a
    [Z].  [None] is a thrown [SyntaxError]. *)

Module Hash.

(** White space that [BigInt(string)] trims. *)
Definition is_space (c : ascii) : bool :=
  let n := N_of_ascii c in
  ((9 <=? n) && (n <=? 13)) || (n =? 32).

Fixpoint trimStart (s : string) : string :=
  match s with
  | String c s' => if is_space c then trimStart s' else s
  | EmptyString => EmptyString
  end.

Fixpoint trimEnd (s : string) : string :=
  match s with
  | String c s' =>
      match trimEnd s' with
      | EmptyString => if is_space c then EmptyString else String c EmptyString
      | rest => String c rest
      end
  | EmptyString => EmptyString
  end.

(** The value of a digit in base [base]; letters count in either case. *)
Definition digit_in (base : N) (c : ascii) : option N :=
  match HexString.ascii_to_digit c with
  | Some d => if d <? base then Some d else None
  | None => None
  end.

Fixpoint parseDigits (base acc : N) (s : string) : option N :=
  match s with
  | EmptyString => Some acc
  | String c s' =>
      match digit_in base c with
      | Some d => parseDigits base (acc * base + d) s'
      | None => None
      end
  end.

(** One digit at least. *)
Definition parseNumeral (base : N) (s : string) : option N :=
  match s with
  | EmptyString => None
  | _ => parseDigits base 0 s
  end.

(** [BigInt(s)] for a string [s]: white space is trimmed, the empty string
    is zero, a prefix [0x], [0o] or [0b] (in either case) selects the
    base, and only a decimal numeral may carry a sign. *)
Definition BigInt_of_string (s : string) : option Z :=
  match trimEnd (trimStart s) with
  | EmptyString => Some 0%Z
  | String "0" (String "x" digits) | String "0" (String "X" digits) =>
      option_map Z.of_N (parseNumeral 16 digits)
  | String "0" (String "o" digits) | String "0" (String "O" digits) =>
      option_map Z.of_N (parseNumeral 8 digits)
  | String "0" (String "b" digits) | String "0" (String "B" digits) =>
      option_map Z.of_N (parseNumeral 2 digits)
  | String "-" digits => option_map (fun n => (- Z.of_N n)%Z) (parseNumeral 10 digits)
  | String "+" digits => option_map Z.of_N (parseNumeral 10 digits)
  | digits => option_map Z.of_N (parseNumeral 10 digits)
  end.

(** The digit [d < 16] as [toString(16)] prints it. *)
Definition hexDigit (d : N) : ascii :=
  if d <? 10 then ascii_of_N (48 + d) else ascii_of_N (87 + d).

(** The hexadecimal digits of [n] in front of [acc]; [fuel] bounds their
    number. *)
Fixpoint hexDigits (fuel : nat) (n : N) (acc : string) : string :=
  match fuel with
  | O => acc
  | S fuel' =>
      if n <? 16 then String (hexDigit n) acc
      else hexDigits fuel' (n / 16) (String (hexDigit (n mod 16)) acc)
  end.

(** [n.toString(16)] for [n >= 0]. *)
Definition toString16_N (n : N) : string :=
  hexDigits (S (N.to_nat (N.log2 n))) n EmptyString.

(** [value.toString(16)] *)
Definition toString16 (value : Z) : string :=
  match value with
  | Zneg q => String "-" (toString16_N (Npos q))
  | _ => toString16_N (Z.to_N value)
  end.

Fixpoint repeat_char (c : ascii) (n : nat) : string :=
  match n with
  | O => EmptyString
  | S n' => String c (repeat_char c n')
  end.

(** [s.padStart(targetLength, c)] for a one-character pad string. *)
Definition padStart (targetLength : nat) (c : ascii) (s : string) : string :=
  (repeat_char c (targetLength - String.length s) ++ s)%string.

(** [addressToBigInt] *)
Definition addressToBigInt (address : string) : option Z :=
  let address :=
    if String.prefix "0x" address then address else ("0x" ++ address)%string in
  BigInt_of_string address.

(** [bigIntToAddress] *)
Definition bigIntToAddress (value : Z) : string :=
  let hex := padStart 40 "0" (toString16 value) in
  ("0x" ++ hex)%string.

(** [buffer.toString('hex')]: two lower-case digits for each byte. *)
Fixpoint Buffer_toString_hex (bytes : list Byte.byte) : string :=
  match bytes with
  | [] => EmptyString
  | b :: bytes' =>
      String (hexDigit (Byte.to_N b / 16))
        (String (hexDigit (Byte.to_N b mod 16)) (Buffer_toString_hex bytes'))
  end.

(** [generateSecret], from the bytes that [randomBytes(32)] returned. *)
Definition generateSecret (bytes : list Byte.byte) : option Z :=
  BigInt_of_string ("0x" ++ Buffer_toString_hex bytes)%string.

(** The number a byte string spells, most significant byte first. *)
Definition bigEndian (bytes : list Byte.byte) : N :=
  fold_left (fun acc b => acc * 256 + Byte.to_N b) bytes 0.

(** The lower-case spelling of a hexadecimal numeral. *)
Fixpoint lowerHex (s : string) : string :=
  match s with
  | EmptyString => EmptyString
  | String c s' =>
      String (match digit_in 16 c with Some d => hexDigit d | None => c end)
             (lowerHex s')
  end.

(** A string of hexadecimal digits. *)
Fixpoint all_hex (s : string) : bool :=
  match s with
  | EmptyString => true
  | String c s' =>
      match digit_in 16 c with Some _ => all_hex s' | None => false end
  end.

End Hash.

(** ** Concrete ledgers

    The scenarios of the specification, run against the mock verifier. *)

Module Scenario.
#[local] Existing Instance MockVerifier.

Definition creator : N := 7.
Definition finder : N := 9.
Definition seeker : N := 11.
Definition t0 : N := 1000.
Definition proof0 : Proof := mkProof (0, 0) ((0, 0), (0, 0)) (0, 0).

(** Scenario 1: one hunt registered at time [t0] on the fresh ledger. *)
Definition registration : Call := CreateHunt 1000000 42 86400 1209600 1000.
Definition registered : State := run init [(mkEnv creator t0, registration)].

(** Scenario 2: the finder claims at [claimableAfter]. *)
Definition claim_env : Env := mkEnv finder (t0 + 86400).
Definition claimed : State :=
  run registered [(claim_env, ClaimTreasure 0 proof0 5)].

(** Scenario 3: the first withdrawal, at the instant of the claim. *)
Definition withdrawn_once : State := run claimed [(claim_env, Withdraw 0)].

(** Scenario 4: the second withdrawal, one interval later. *)
Definition later_env : Env := mkEnv finder (t0 + 86400 + 86400).
Definition withdrawn_twice : State := run withdrawn_once [(later_env, Withdraw 0)].

(** A seeker buys a hint on the registered hunt. *)
Definition hinted : State :=
  run registered [(mkEnv seeker (t0 + 5), PurchaseHint 1000 0)].

(** The registered hunt at its deadline, nobody having claimed it. *)
Definition expiry_env : Env := mkEnv seeker (t0 + 1209600).
Definition expired : State := run registered [(expiry_env, ExpireHunt 0)].

End Scenario.

(** Pot conservation for hunt [id]: what was withdrawn never exceeds what
    came in, the pot balance is exactly the difference, and it is returned
    as soon as the sum fits in 256 bits. *)
Definition pot_conserved (s : State) (id : N) : Prop :=
  let funds := initialPrize (hunt_at s id) + contribSum (contributions_of s id) in
  totalWithdrawn (claim_at s id) <= funds /\
  (forall b, getPotBalance s id = Ok b ->
             b + totalWithdrawn (claim_at s id) = funds) /\
  (funds <= MAX_UINT256 -> is_ok (getPotBalance s id) = true).

(** Everything the ledger stores under hunt id [j] is the same in [s] and [s']. *)
Definition same_hunt_state (s s' : State) (j : N) : Prop :=
  hunt_at s' j = hunt_at s j /\
  claim_at s' j = claim_at s j /\
  contributions_of s' j = contributions_of s j /\
  purchased_of s' j = purchased_of s j /\
  total_at s' j = total_at s j.

(** * Properties *)

(** ** The result monad *)

Lemma bind_Ok {A B} (m : result A) (f : A -> result B) (b : B) :
  (m ≫= f) = Ok b <-> exists a, m = Ok a /\ f a = Ok b.
Proof.
  destruct m as [a|err]; simpl; split.
  - intros H. exists a. auto.
  - intros (a' & Ha & H). injection Ha as ->. exact H.
  - discriminate.
  - intros (a' & Ha & _). discriminate.
Qed.

Lemma require_Ok (cond : bool) (reason : string) (u : unit) :
  require cond reason = Ok u <-> cond = true.
Proof. destruct cond, u; simpl; split; intros; congruence. Qed.

Lemma checked_add_Ok (a b c : N) :
  checked_add a b = Ok c <-> c = a + b /\ a + b <= MAX_UINT256.
Proof.
  unfold checked_add. destruct (N.leb_spec (a + b) MAX_UINT256); split.
  - intros [= <-]. auto.
  - intros [-> _]. reflexivity.
  - discriminate.
  - intros [_ ?]. lia.
Qed.

Lemma checked_mul_Ok (a b c : N) :
  checked_mul a b = Ok c <-> c = a * b /\ a * b <= MAX_UINT256.
Proof.
  unfold checked_mul. destruct (N.leb_spec (a * b) MAX_UINT256); split.
  - intros [= <-]. auto.
  - intros [-> _]. reflexivity.
  - discriminate.
  - intros [_ ?]. lia.
Qed.

Lemma status_eqb_true (a b : HuntStatus) : status_eqb a b = true <-> a = b.
Proof. unfold status_eqb. apply bool_decide_eq_true. Qed.

Lemma is_ok_true {A} (r : result A) : is_ok r = true <-> exists a, r = Ok a.
Proof.
  destruct r as [a|err]; simpl; split; eauto.
  - discriminate.
  - intros [? H]; discriminate H.
Qed.


(** Peel the successive statements of a call that returned. *)
Ltac peel H :=
  repeat (let x := fresh "x" in let Hx := fresh "Hx" in
          apply bind_Ok in H; destruct H as (x & Hx & H);
          first [ apply require_Ok in Hx
                | apply checked_add_Ok in Hx; destruct Hx as [-> Hx]
                | apply checked_mul_Ok in Hx; destruct Hx as [-> Hx]
                | idtac ]).

(** ** Reading the storage after a write *)

Lemma hunt_at_set_hunt s id h j :
  hunt_at (set_hunt s id h) j = if decide (id = j) then h else hunt_at s j.
Proof. unfold hunt_at, set_hunt; simpl. rewrite lookup_insert. by case_decide. Qed.

Lemma claim_at_set_claim s id c j :
  claim_at (set_claim s id c) j = if decide (id = j) then c else claim_at s j.
Proof. unfold claim_at, set_claim; simpl. rewrite lookup_insert. by case_decide. Qed.

Lemma contributions_of_set_contribution s id who v j :
  contributions_of (set_contribution s id who v) j =
  if decide (id = j) then <[who := v]> (contributions_of s id) else contributions_of s j.
Proof.
  unfold contributions_of at 1. unfold set_contribution; simpl.
  rewrite lookup_insert. by case_decide.
Qed.

Lemma purchased_of_set_purchased s id who b j :
  purchased_of (set_purchased s id who b) j =
  if decide (id = j) then <[who := b]> (purchased_of s id) else purchased_of s j.
Proof.
  unfold purchased_of at 1. unfold set_purchased; simpl.
  rewrite lookup_insert. by case_decide.
Qed.

Lemma total_at_set_total s id v j :
  total_at (set_total s id v) j = if decide (id = j) then v else total_at s j.
Proof. unfold total_at, set_total; simpl. rewrite lookup_insert. by case_decide. Qed.

Lemma contribution_at_set_contribution s id who v j who' :
  contribution_at (set_contribution s id who v) j who' =
  if decide (id = j /\ who = who') then v else contribution_at s j who'.
Proof.
  unfold contribution_at. rewrite contributions_of_set_contribution.
  destruct (decide (id = j)) as [->|Hne].
  - rewrite lookup_insert.
    destruct (decide (who = who')) as [->|Hw].
    + by rewrite decide_True.
    + rewrite decide_False; [done|]. by intros [_ ?].
  - rewrite decide_False; [done|]. by intros [? _].
Qed.

Lemma purchased_at_set_purchased s id who b j who' :
  purchased_at (set_purchased s id who b) j who' =
  if decide (id = j /\ who = who') then b else purchased_at s j who'.
Proof.
  unfold purchased_at. rewrite purchased_of_set_purchased.
  destruct (decide (id = j)) as [->|Hne].
  - rewrite lookup_insert.
    destruct (decide (who = who')) as [->|Hw].
    + by rewrite decide_True.
    + rewrite decide_False; [done|]. by intros [_ ?].
  - rewrite decide_False; [done|]. by intros [? _].
Qed.

(** A write to one storage variable is invisible through the others. *)
Ltac untouched := intros; reflexivity.

Lemma hunt_at_set_claim s id c j : hunt_at (set_claim s id c) j = hunt_at s j.
Proof. untouched. Qed.
Lemma hunt_at_set_contribution s id w v j :
  hunt_at (set_contribution s id w v) j = hunt_at s j.
Proof. untouched. Qed.
Lemma hunt_at_set_purchased s id w b j :
  hunt_at (set_purchased s id w b) j = hunt_at s j.
Proof. untouched. Qed.
Lemma hunt_at_set_total s id v j : hunt_at (set_total s id v) j = hunt_at s j.
Proof. untouched. Qed.
Lemma hunt_at_set_huntCounter s n j : hunt_at (set_huntCounter s n) j = hunt_at s j.
Proof. untouched. Qed.

Lemma claim_at_set_hunt s id h j : claim_at (set_hunt s id h) j = claim_at s j.
Proof. untouched. Qed.
Lemma claim_at_set_contribution s id w v j :
  claim_at (set_contribution s id w v) j = claim_at s j.
Proof. untouched. Qed.
Lemma claim_at_set_purchased s id w b j :
  claim_at (set_purchased s id w b) j = claim_at s j.
Proof. untouched. Qed.
Lemma claim_at_set_total s id v j : claim_at (set_total s id v) j = claim_at s j.
Proof. untouched. Qed.
Lemma claim_at_set_huntCounter s n j : claim_at (set_huntCounter s n) j = claim_at s j.
Proof. untouched. Qed.

Lemma contributions_of_set_hunt s id h j :
  contributions_of (set_hunt s id h) j = contributions_of s j.
Proof. untouched. Qed.
Lemma contributions_of_set_claim s id c j :
  contributions_of (set_claim s id c) j = contributions_of s j.
Proof. untouched. Qed.
Lemma contributions_of_set_purchased s id w b j :
  contributions_of (set_purchased s id w b) j = contributions_of s j.
Proof. untouched. Qed.
Lemma contributions_of_set_total s id v j :
  contributions_of (set_total s id v) j = contributions_of s j.
Proof. untouched. Qed.
Lemma contributions_of_set_huntCounter s n j :
  contributions_of (set_huntCounter s n) j = contributions_of s j.
Proof. untouched. Qed.

Lemma purchased_of_set_hunt s id h j :
  purchased_of (set_hunt s id h) j = purchased_of s j.
Proof. untouched. Qed.
Lemma purchased_of_set_claim s id c j :
  purchased_of (set_claim s id c) j = purchased_of s j.
Proof. untouched. Qed.
Lemma purchased_of_set_contribution s id w v j :
  purchased_of (set_contribution s id w v) j = purchased_of s j.
Proof. untouched. Qed.
Lemma purchased_of_set_total s id v j :
  purchased_of (set_total s id v) j = purchased_of s j.
Proof. untouched. Qed.
Lemma purchased_of_set_huntCounter s n j :
  purchased_of (set_huntCounter s n) j = purchased_of s j.
Proof. untouched. Qed.

Lemma total_at_set_hunt s id h j : total_at (set_hunt s id h) j = total_at s j.
Proof. untouched. Qed.
Lemma total_at_set_claim s id c j : total_at (set_claim s id c) j = total_at s j.
Proof. untouched. Qed.
Lemma total_at_set_contribution s id w v j :
  total_at (set_contribution s id w v) j = total_at s j.
Proof. untouched. Qed.
Lemma total_at_set_purchased s id w b j :
  total_at (set_purchased s id w b) j = total_at s j.
Proof. untouched. Qed.
Lemma total_at_set_huntCounter s n j : total_at (set_huntCounter s n) j = total_at s j.
Proof. untouched. Qed.

Lemma contribution_at_set_hunt s id h j who :
  contribution_at (set_hunt s id h) j who = contribution_at s j who.
Proof. untouched. Qed.
Lemma contribution_at_set_claim s id c j who :
  contribution_at (set_claim s id c) j who = contribution_at s j who.
Proof. untouched. Qed.
Lemma contribution_at_set_purchased s id w b j who :
  contribution_at (set_purchased s id w b) j who = contribution_at s j who.
Proof. untouched. Qed.
Lemma contribution_at_set_total s id v j who :
  contribution_at (set_total s id v) j who = contribution_at s j who.
Proof. untouched. Qed.
Lemma contribution_at_set_huntCounter s n j who :
  contribution_at (set_huntCounter s n) j who = contribution_at s j who.
Proof. untouched. Qed.

Lemma purchased_at_set_hunt s id h j who :
  purchased_at (set_hunt s id h) j who = purchased_at s j who.
Proof. untouched. Qed.
Lemma purchased_at_set_claim s id c j who :
  purchased_at (set_claim s id c) j who = purchased_at s j who.
Proof. untouched. Qed.
Lemma purchased_at_set_contribution s id w v j who :
  purchased_at (set_contribution s id w v) j who = purchased_at s j who.
Proof. untouched. Qed.
Lemma purchased_at_set_total s id v j who :
  purchased_at (set_total s id v) j who = purchased_at s j who.
Proof. untouched. Qed.
Lemma purchased_at_set_huntCounter s n j who :
  purchased_at (set_huntCounter s n) j who = purchased_at s j who.
Proof. untouched. Qed.

Create Rewrite HintDb storage.
#[global] Hint Rewrite
  hunt_at_set_hunt claim_at_set_claim contributions_of_set_contribution
  purchased_of_set_purchased total_at_set_total
  hunt_at_set_claim hunt_at_set_contribution hunt_at_set_purchased
  hunt_at_set_total hunt_at_set_huntCounter
  claim_at_set_hunt claim_at_set_contribution claim_at_set_purchased
  claim_at_set_total claim_at_set_huntCounter
  contributions_of_set_hunt contributions_of_set_claim
  contributions_of_set_purchased contributions_of_set_total
  contributions_of_set_huntCounter
  purchased_of_set_hunt purchased_of_set_claim purchased_of_set_contribution
  purchased_of_set_total purchased_of_set_huntCounter
  total_at_set_hunt total_at_set_claim total_at_set_contribution
  total_at_set_purchased total_at_set_huntCounter
  contribution_at_set_contribution purchased_at_set_purchased
  contribution_at_set_hunt contribution_at_set_claim
  contribution_at_set_purchased contribution_at_set_total
  contribution_at_set_huntCounter
  purchased_at_set_hunt purchased_at_set_claim purchased_at_set_contribution
  purchased_at_set_total purchased_at_set_huntCounter : storage.

Ltac storage := autorewrite with storage in *.

(** ** What each function does when it returns *)

Lemma require_true (cond : bool) (reason : string) :
  cond = true -> require cond reason = Ok tt.
Proof. by intros ->. Qed.

Lemma checked_add_fits (a b : N) :
  a + b <= MAX_UINT256 -> checked_add a b = Ok (a + b).
Proof. intros H. by apply checked_add_Ok. Qed.

Lemma checked_mul_fits (a b : N) :
  a * b <= MAX_UINT256 -> checked_mul a b = Ok (a * b).
Proof. intros H. by apply checked_mul_Ok. Qed.

Lemma getPotBalance_Ok s id b :
  getPotBalance s id = Ok b <->
  initialPrize (hunt_at s id) + total_at s id <= MAX_UINT256 /\
  b = pot_of (initialPrize (hunt_at s id)) (total_at s id)
             (totalWithdrawn (claim_at s id)).
Proof.
  unfold getPotBalance, pot_of. split.
  - intros H. peel H. by injection H as <-.
  - intros [Hfit ->]. by rewrite checked_add_fits.
Qed.

Lemma createHunt_Ok s e v lc lock dur price s' acts id :
  createHunt s e v lc lock dur price = Ok (s', acts, id) <->
  0 < v /\ MIN_HIDER_LOCKOUT <= lock /\ dur <= MAX_HUNT_DURATION /\ lock < dur /\
  huntCounter s + 1 <= MAX_UINT256 /\
  block_timestamp e + lock <= MAX_UINT256 /\
  block_timestamp e + dur <= MAX_UINT256 /\
  id = huntCounter s /\
  s' = set_hunt (set_huntCounter s (huntCounter s + 1)) (huntCounter s)
         (mkHunt (msg_sender e) lc v (block_timestamp e)
                 (block_timestamp e + lock) (block_timestamp e + dur) price Active) /\
  acts = [Emit (HuntCreated (huntCounter s) (msg_sender e) lc v
                            (block_timestamp e + lock))].
Proof.
  unfold createHunt. split.
  - intros H. peel H. injection H as <- <- <-.
    rewrite N.ltb_lt in *. rewrite N.leb_le in *. tauto.
  - intros (H1 & H2 & H3 & H4 & H5 & H6 & H7 & -> & -> & ->).
    rewrite (require_true (0 <? v)) by (by apply N.ltb_lt).
    rewrite (require_true (MIN_HIDER_LOCKOUT <=? lock)) by (by apply N.leb_le).
    rewrite (require_true (dur <=? MAX_HUNT_DURATION)) by (by apply N.leb_le).
    rewrite (require_true (lock <? dur)) by (by apply N.ltb_lt).
    by rewrite !checked_add_fits.
Qed.

Lemma purchaseHint_Ok s e v id s' acts :
  purchaseHint s e v id = Ok (s', acts) <->
  status (hunt_at s id) = Active /\
  hintPrice (hunt_at s id) <= v /\
  purchased_at s id (msg_sender e) = false /\
  contribution_at s id (msg_sender e) + v <= MAX_UINT256 /\
  total_at s id + v <= MAX_UINT256 /\
  s' = set_purchased
         (set_total
            (set_contribution s id (msg_sender e)
                              (contribution_at s id (msg_sender e) + v))
            id (total_at s id + v))
         id (msg_sender e) true /\
  acts = [Emit (HintPurchased id (msg_sender e) v)].
Proof.
  unfold purchaseHint. split.
  - intros H. peel H. injection H as <- <-.
    rewrite status_eqb_true, N.leb_le, negb_true_iff in *. tauto.
  - intros (H1 & H2 & H3 & H4 & H5 & -> & ->).
    rewrite (require_true (status_eqb _ _)) by (by apply status_eqb_true).
    rewrite (require_true (_ <=? v)) by (by apply N.leb_le).
    rewrite (require_true (negb _)) by (by apply negb_true_iff).
    by rewrite !checked_add_fits.
Qed.

Lemma claimTreasure_Ok `{IVerifier} s e id pf cc s' acts :
  claimTreasure s e id pf cc = Ok (s', acts) <->
  status (hunt_at s id) = Active /\
  claimableAfter (hunt_at s id) <= block_timestamp e /\
  block_timestamp e < expiresAt (hunt_at s id) /\
  claimer (claim_at s id) = 0 /\
  verifyProof pf cc = true /\
  s' = set_hunt (set_claim s id (mkClaim (msg_sender e) (block_timestamp e) 0 0))
                id (with_status (hunt_at s id) Claimed) /\
  acts = [Emit (ClaimSubmitted id (msg_sender e))].
Proof.
  unfold claimTreasure. split.
  - intros H0. peel H0. injection H0 as <- <-.
    rewrite status_eqb_true, N.leb_le, N.ltb_lt, N.eqb_eq in *. tauto.
  - intros (H1 & H2 & H3 & H4 & H5 & -> & ->).
    rewrite (require_true (status_eqb _ _)) by (by apply status_eqb_true).
    rewrite (require_true (_ <=? _)) by (by apply N.leb_le).
    rewrite (require_true (_ <? _)) by (by apply N.ltb_lt).
    rewrite (require_true (_ =? 0)) by (by apply N.eqb_eq).
    by rewrite (require_true (verifyProof _ _)).
Qed.


Lemma withdrawAmount_of_Ok balance amount :
  withdrawAmount_of balance = Ok amount <->
  balance * WITHDRAWAL_PERCENT <= MAX_UINT256 /\
  amount = (if balance * WITHDRAWAL_PERCENT / 100 =? 0 then balance
            else balance * WITHDRAWAL_PERCENT / 100).
Proof.
  unfold withdrawAmount_of. split.
  - intros H. peel H. by injection H as <-.
  - intros [Hfit ->]. by rewrite checked_mul_fits.
Qed.

Lemma withdraw_Ok s e id s' acts :
  withdraw s e id = Ok (s', acts) <->
  exists balance amount,
    status (hunt_at s id) = Claimed /\
    claimer (claim_at s id) = msg_sender e /\
    interval_elapsed (claim_at s id) (block_timestamp e) = Ok true /\
    getPotBalance s id = Ok balance /\
    0 < balance /\
    withdrawAmount_of balance = Ok amount /\
    totalWithdrawn (claim_at s id) + amount <= MAX_UINT256 /\
    s' = set_claim s id (with_withdrawal (claim_at s id) (block_timestamp e)
                           (totalWithdrawn (claim_at s id) + amount)) /\
    acts = [Transfer (msg_sender e) amount;
            Emit (Withdrawal id (msg_sender e) amount)].
Proof.
  unfold withdraw. split.
  - intros H. peel H. injection H as <- <-. subst.
    rewrite status_eqb_true, N.eqb_eq, N.ltb_lt in *.
    eexists _, _. repeat split; eauto.
  - intros (balance & amount & H1 & H2 & H3 & H4 & H5 & H6 & H7 & -> & ->).
    rewrite (require_true (status_eqb _ _)) by (by apply status_eqb_true).
    rewrite (require_true (_ =? _)) by (by apply N.eqb_eq).
    rewrite H3; simpl. rewrite H4; simpl.
    rewrite (require_true (0 <? _)) by (by apply N.ltb_lt).
    rewrite H6; simpl. by rewrite checked_add_fits.
Qed.

Lemma expireHunt_Ok s e id s' acts :
  expireHunt s e id = Ok (s', acts) <->
  exists balance,
    status (hunt_at s id) = Active /\
    expiresAt (hunt_at s id) <= block_timestamp e /\
    getPotBalance s id = Ok balance /\
    s' = set_hunt s id (with_status (hunt_at s id) Expired) /\
    acts = (if 0 <? balance then [Transfer (hider (hunt_at s id)) balance] else [])
           ++ [Emit (HuntExpired id)].
Proof.
  assert (Hpot : getPotBalance (set_hunt s id (with_status (hunt_at s id) Expired)) id
                 = getPotBalance s id).
  { unfold getPotBalance. storage. by rewrite decide_True. }
  unfold expireHunt. rewrite Hpot. split.
  - intros H. peel H. injection H as <- <-.
    rewrite status_eqb_true, N.leb_le in *. eauto 10.
  - intros (balance & H1 & H2 & H3 & -> & ->).
    rewrite (require_true (status_eqb _ _)) by (by apply status_eqb_true).
    rewrite (require_true (_ <=? _)) by (by apply N.leb_le).
    by rewrite H3.
Qed.

(** ** The ledger invariant *)

Lemma contribSum_insert (m : gmap N N) (k y : N) :
  contribSum (<[k := y]> m) + default 0 (m !! k) = contribSum m + y.
Proof.
  unfold contribSum. destruct (m !! k) as [x|] eqn:E; simpl.
  - rewrite <- (insert_delete_eq m k y).
    rewrite map_fold_insert_L; [|intros; lia|apply lookup_delete_eq].
    rewrite (map_fold_delete_L _ _ k x m); [lia|intros; lia|done].
  - rewrite map_fold_insert_L; [lia|intros; lia|done].
Qed.

Lemma contribSum_empty : contribSum ∅ = 0.
Proof. unfold contribSum. apply map_fold_empty. Qed.


Lemma pot_of_exact prize total withdrawn :
  withdrawn <= prize + total ->
  pot_of prize total withdrawn + withdrawn = prize + total.
Proof. unfold pot_of. destruct (N.ltb_spec withdrawn (prize + total)); lia. Qed.

Lemma release_of_le balance : release_of balance <= balance.
Proof.
  unfold release_of, WITHDRAWAL_PERCENT.
  destruct (N.eqb_spec (balance * 50 / 100) 0); [lia|].
  apply N.Div0.div_le_upper_bound. lia.
Qed.

Lemma release_of_pos balance : 0 < balance -> 0 < release_of balance.
Proof.
  unfold release_of, WITHDRAWAL_PERCENT.
  destruct (N.eqb_spec (balance * 50 / 100) 0) as [_|Hne]; [done|].
  intros _. by apply N.neq_0_lt_0.
Qed.

Lemma withdrawAmount_of_release balance amount :
  withdrawAmount_of balance = Ok amount -> amount = release_of balance.
Proof. intros H. apply withdrawAmount_of_Ok in H. tauto. Qed.

Lemma ledger_inv_init : ledger_inv init.
Proof.
  split; intros id; intros.
  - by left.
  - done.
  - unfold claim_at, hunt_at, total_at. simpl. rewrite !lookup_empty. simpl. lia.
  - unfold total_at, contributions_of. simpl. rewrite !lookup_empty. simpl.
    by rewrite contribSum_empty.
  - simpl in *. lia.
Qed.

Lemma ledger_inv_createHunt s e v lc lock dur price s' acts id :
  ledger_inv s ->
  createHunt s e v lc lock dur price = Ok (s', acts, id) ->
  ledger_inv s'.
Proof.
  intros [Hf Hc Hw Ht Hr] H.
  apply createHunt_Ok in H
    as (Hv & Hmin & Hmax & Hlt & Hcnt & Hca & Hea & -> & -> & ->).
  assert (Hnew : claim_at s (huntCounter s) = claim0).
  { apply Hc. destruct (Hf (huntCounter s)) as [E|E]; [lia| |]; by rewrite E. }
  split; intros j; storage; simpl.
  - intros Hj. rewrite decide_False by lia. apply Hf. lia.
  - case_decide; [subst; by rewrite Hnew|apply Hc].
  - case_decide; [subst; rewrite Hnew; simpl; lia|apply Hw].
  - apply Ht.
  - intros Hj. case_decide; [subst; simpl; lia|]. apply Hr. lia.
Qed.

Lemma ledger_inv_purchaseHint s e v id s' acts :
  ledger_inv s ->
  purchaseHint s e v id = Ok (s', acts) ->
  ledger_inv s'.
Proof.
  intros [Hf Hc Hw Ht Hr] H.
  apply purchaseHint_Ok in H as (Hs & Hp & Hb & Hfc & Hft & -> & ->).
  split; intros j; storage; simpl.
  - apply Hf.
  - apply Hc.
  - specialize (Hw j). case_decide; [subst|]; lia.
  - case_decide; [subst|apply Ht].
    pose proof (contribSum_insert (contributions_of s j) (msg_sender e)
                  (contribution_at s j (msg_sender e) + v)) as Hsum.
    unfold contribution_at in *. rewrite (Ht j). lia.
  - apply Hr.
Qed.

Lemma ledger_inv_claimTreasure `{IVerifier} s e id pf cc s' acts :
  ledger_inv s ->
  claimTreasure s e id pf cc = Ok (s', acts) ->
  ledger_inv s'.
Proof.
  intros [Hf Hc Hw Ht Hr] H0.
  apply claimTreasure_Ok in H0 as (Hs & Hlo & Hhi & Hcl & Hv & -> & ->).
  split; intros j; storage; simpl.
  - intros Hj. case_decide; [subst|by apply Hf].
    destruct (Hf j Hj) as [E|E]; rewrite E in Hhi; simpl in Hhi; lia.
  - case_decide; [subst; simpl; done|apply Hc].
  - case_decide; [subst; simpl; lia|apply Hw].
  - apply Ht.
  - intros Hj. case_decide; [subst; simpl|]; by apply Hr.
Qed.

Lemma ledger_inv_withdraw s e id s' acts :
  ledger_inv s ->
  withdraw s e id = Ok (s', acts) ->
  ledger_inv s'.
Proof.
  intros [Hf Hc Hw Ht Hr] H.
  apply withdraw_Ok in H
    as (balance & amount & Hs & Hcl & Hel & Hb & Hpos & Ha & Hfit & -> & ->).
  apply getPotBalance_Ok in Hb as [Hfb ->].
  apply withdrawAmount_of_release in Ha.
  split; intros j; storage; simpl.
  - apply Hf.
  - case_decide; [subst; congruence|apply Hc].
  - case_decide; [subst j; simpl|apply Hw].
    pose proof (release_of_le (pot_of (initialPrize (hunt_at s id)) (total_at s id)
                                 (totalWithdrawn (claim_at s id)))).
    pose proof (pot_of_exact _ _ _ (Hw id)). lia.
  - apply Ht.
  - apply Hr.
Qed.

Lemma ledger_inv_expireHunt s e id s' acts :
  ledger_inv s ->
  expireHunt s e id = Ok (s', acts) ->
  ledger_inv s'.
Proof.
  intros [Hf Hc Hw Ht Hr] H.
  apply expireHunt_Ok in H as (balance & Hs & Hexp & Hb & -> & ->).
  split; intros j; storage; simpl.
  - intros Hj. case_decide; [subst|by apply Hf]. right.
    destruct (Hf j Hj) as [E|E]; by rewrite E.
  - case_decide; [subst; simpl; intros _; apply Hc; congruence|apply Hc].
  - case_decide; [subst; simpl|]; apply Hw.
  - apply Ht.
  - intros Hj. case_decide; [subst; simpl|]; by apply Hr.
Qed.

Section Reachability.
Context {verifier : IVerifier}.

Lemma exec_cases s e c s' acts :
  exec s e c = Ok (s', acts) ->
  match c with
  | CreateHunt v lc lock dur price =>
      createHunt s e v lc lock dur price = Ok (s', acts, huntCounter s)
  | PurchaseHint v id => purchaseHint s e v id = Ok (s', acts)
  | ClaimTreasure id pf cc => claimTreasure s e id pf cc = Ok (s', acts)
  | Withdraw id => withdraw s e id = Ok (s', acts)
  | ExpireHunt id => expireHunt s e id = Ok (s', acts)
  end.
Proof.
  destruct c; simpl; try done.
  intros H. apply bind_Ok in H as ([[s1 acts1] id1] & Hc & [= <- <-]).
  pose proof Hc as Hid. apply createHunt_Ok in Hid. by replace (huntCounter s) with id1 by tauto.
Qed.

Lemma ledger_inv_exec s e c s' acts :
  ledger_inv s -> exec s e c = Ok (s', acts) -> ledger_inv s'.
Proof.
  intros Hinv H. apply exec_cases in H. destruct c.
  - eapply ledger_inv_createHunt; eauto.
  - eapply ledger_inv_purchaseHint; eauto.
  - eapply ledger_inv_claimTreasure; eauto.
  - eapply ledger_inv_withdraw; eauto.
  - eapply ledger_inv_expireHunt; eauto.
Qed.

Lemma transact_cases s tx :
  (exists s' acts, exec s (fst tx) (snd tx) = Ok (s', acts) /\ transact s tx = s') \/
  (exists err, exec s (fst tx) (snd tx) = Err err /\ transact s tx = s).
Proof.
  unfold transact. destruct (exec s tx.1 tx.2) as [[s' acts]|err]; eauto.
Qed.

(** Induction over the transactions of a run. *)
Lemma run_ind (P : State -> Prop) :
  (forall s tx, P s -> P (transact s tx)) ->
  forall txs s, P s -> P (run s txs).
Proof.
  intros Hstep txs. induction txs as [|tx txs IH]; intros s Hs; simpl; auto.
Qed.

Lemma run_app s txs1 txs2 : run s (txs1 ++ txs2) = run (run s txs1) txs2.
Proof. unfold run. apply fold_left_app. Qed.

Lemma ledger_inv_transact s tx : ledger_inv s -> ledger_inv (transact s tx).
Proof.
  intros Hinv. destruct (transact_cases s tx) as [(s' & acts & He & ->)|(err & _ & ->)].
  - eapply ledger_inv_exec; eauto.
  - done.
Qed.

Lemma ledger_inv_run s txs : ledger_inv s -> ledger_inv (run s txs).
Proof. intros. by apply run_ind; [apply ledger_inv_transact|]. Qed.

Lemma ledger_inv_reachable s : reachable s -> ledger_inv s.
Proof. intros [txs <-]. apply ledger_inv_run, ledger_inv_init. Qed.

Lemma reachable_run s txs : reachable s -> reachable (run s txs).
Proof. intros [txs0 <-]. exists (txs0 ++ txs). apply run_app. Qed.

Lemma reachable_exec s e c s' acts :
  reachable s -> exec s e c = Ok (s', acts) -> reachable s'.
Proof.
  intros Hr He. replace s' with (run s [(e, c)]); [by apply reachable_run|].
  simpl. unfold transact. simpl. by rewrite He.
Qed.

End Reachability.

(** ** Claiming *)

Section Claiming.
Context {verifier : IVerifier}.

(** A claimed hunt stays claimed, and its claimer and claim time stay. *)
Lemma claimed_transact s id tx :
  ledger_inv s -> status (hunt_at s id) = Claimed ->
  status (hunt_at (transact s tx) id) = Claimed /\
  claimer (claim_at (transact s tx) id) = claimer (claim_at s id) /\
  claimTime (claim_at (transact s tx) id) = claimTime (claim_at s id).
Proof.
  intros Hinv Hcl.
  destruct (transact_cases s tx) as [(s' & acts & He & ->)|(err & _ & ->)]; [|done].
  apply exec_cases in He. destruct tx.2.
  - apply createHunt_Ok in He as (_ & _ & _ & _ & _ & _ & _ & _ & -> & _).
    storage. case_decide; [subst|done].
    destruct (inv_fresh s Hinv (huntCounter s)) as [E|E]; [lia| |];
      rewrite E in Hcl; discriminate.
  - apply purchaseHint_Ok in He as (_ & _ & _ & _ & _ & -> & _). by storage.
  - apply claimTreasure_Ok in He as (Hs & _ & _ & _ & _ & -> & _).
    storage. case_decide; [subst; congruence|done].
  - apply withdraw_Ok in He as (? & ? & _ & _ & _ & _ & _ & _ & _ & -> & _).
    storage. case_decide; [subst|done]. done.
  - apply expireHunt_Ok in He as (? & Hs & _ & _ & -> & _).
    storage. case_decide; [subst; congruence|done].
Qed.

Lemma claimed_run s id txs :
  ledger_inv s -> status (hunt_at s id) = Claimed ->
  status (hunt_at (run s txs) id) = Claimed /\
  claimer (claim_at (run s txs) id) = claimer (claim_at s id) /\
  claimTime (claim_at (run s txs) id) = claimTime (claim_at s id).
Proof.
  intros Hinv Hcl.
  enough (ledger_inv (run s txs) /\
          status (hunt_at (run s txs) id) = Claimed /\
          claimer (claim_at (run s txs) id) = claimer (claim_at s id) /\
          claimTime (claim_at (run s txs) id) = claimTime (claim_at s id)) by tauto.
  apply run_ind; [|done].
  intros s1 tx (Hinv1 & Hcl1 & Hc1 & Ht1).
  destruct (claimed_transact s1 id tx Hinv1 Hcl1) as (? & ? & ?).
  split; [by apply ledger_inv_transact|]. split; [done|]. split; congruence.
Qed.

(** The outcome of a claim does not read the stored location commitment. *)
Lemma claimTreasure_replace_locationCommitment s e id pf cc lc :
  claimTreasure (replace_locationCommitment s id lc) e id pf cc =
  match claimTreasure s e id pf cc with
  | Ok (s', acts) => Ok (replace_locationCommitment s' id lc, acts)
  | Err err => Err err
  end.
Proof.
  unfold claimTreasure, replace_locationCommitment. storage.
  rewrite decide_True by done. simpl.
  destruct (require (status_eqb _ _) _); simpl; [|done].
  destruct (require (_ <=? _) _); simpl; [|done].
  destruct (require (_ <? _) _); simpl; [|done].
  destruct (require (_ =? 0) _); simpl; [|done].
  destruct (require (verifyProof _ _) _); simpl; [|done].
  do 2 f_equal. storage. rewrite decide_True by done.
  unfold set_hunt, set_claim; simpl. f_equal.
  by rewrite !insert_insert_eq.
Qed.

(** C1.  [claimTreasure] returns only for an Active hunt, inside the window
    [claimableAfter <= now < expiresAt], with a proof the verifier accepts
    and no claim recorded; it then records the claim of the caller at the
    current time and marks the hunt Claimed.  From then on, whatever
    transactions follow, a further [claimTreasure] on that hunt reverts,
    changes nothing, and the recorded claimer and claim time stay. *)
Theorem claimTreasure_single_claim s e id pf cc s' acts :
  reachable s ->
  claimTreasure s e id pf cc = Ok (s', acts) ->
  (status (hunt_at s id) = Active /\
   claimableAfter (hunt_at s id) <= block_timestamp e /\
   block_timestamp e < expiresAt (hunt_at s id) /\
   verifyProof pf cc = true /\
   claim_at s id = claim0) /\
  (claim_at s' id = mkClaim (msg_sender e) (block_timestamp e) 0 0 /\
   status (hunt_at s' id) = Claimed) /\
  (forall txs e2 pf2 cc2,
     claimTreasure (run s' txs) e2 id pf2 cc2 = Err (Revert "Hunt not active") /\
     transact (run s' txs) (e2, ClaimTreasure id pf2 cc2) = run s' txs /\
     claimer (claim_at (run s' txs) id) = msg_sender e /\
     claimTime (claim_at (run s' txs) id) = block_timestamp e).
Proof.
  intros Hreach Hok.
  pose proof (ledger_inv_reachable s Hreach) as Hinv.
  pose proof (ledger_inv_claimTreasure _ _ _ _ _ _ _ Hinv Hok) as Hinv'.
  apply claimTreasure_Ok in Hok as (Hs & Hlo & Hhi & Hcl & Hv & -> & ->).
  set (s' := set_hunt _ _ _) in *.
  assert (Hnew : claim_at s' id = mkClaim (msg_sender e) (block_timestamp e) 0 0).
  { subst s'. storage. by rewrite decide_True. }
  assert (Hst : status (hunt_at s' id) = Claimed).
  { subst s'. storage. by rewrite decide_True. }
  split; [|split; [done|]].
  - repeat split; try done. apply (inv_claim s Hinv). congruence.
  - intros txs e2 pf2 cc2.
    destruct (claimed_run s' id txs Hinv' Hst) as (Hst2 & Hc2 & Ht2).
    rewrite Hnew in Hc2, Ht2. simpl in Hc2, Ht2.
    assert (Herr : claimTreasure (run s' txs) e2 id pf2 cc2
                   = Err (Revert "Hunt not active")).
    { unfold claimTreasure. by rewrite Hst2. }
    repeat split; try done.
    unfold transact; simpl. by rewrite Herr.
Qed.

(** C2.  For a hunt that is Active and inside its claim window, every
    [(proof, claimCommitment)] the verifier accepts makes [claimTreasure]
    return, whoever calls; and running the same call on the ledger in which
    the hunt's stored location commitment is replaced by any other value
    gives the same outcome, up to that replaced field. *)
Theorem claimTreasure_ignores_commitment s e id pf cc :
  reachable s ->
  status (hunt_at s id) = Active ->
  claimableAfter (hunt_at s id) <= block_timestamp e ->
  block_timestamp e < expiresAt (hunt_at s id) ->
  verifyProof pf cc = true ->
  (exists s' acts, claimTreasure s e id pf cc = Ok (s', acts)) /\
  (forall who, is_ok (claimTreasure s (mkEnv who (block_timestamp e)) id pf cc) = true) /\
  (forall lc,
     claimTreasure (replace_locationCommitment s id lc) e id pf cc =
     match claimTreasure s e id pf cc with
     | Ok (s', acts) => Ok (replace_locationCommitment s' id lc, acts)
     | Err err => Err err
     end).
Proof.
  intros Hreach Hs Hlo Hhi Hv.
  pose proof (ledger_inv_reachable s Hreach) as Hinv.
  assert (Hnone : claimer (claim_at s id) = 0).
  { rewrite (inv_claim s Hinv id); [done|congruence]. }
  split; [|split].
  - eexists _, _. apply claimTreasure_Ok. repeat split; eauto.
  - intros who. apply is_ok_true. eexists (_, _).
    apply claimTreasure_Ok. repeat split; eauto.
  - apply claimTreasure_replace_locationCommitment.
Qed.

End Claiming.

Lemma claimTreasure_single_claim_witness :
  (@reachable MockVerifier Scenario.registered /\
   @claimTreasure MockVerifier Scenario.registered Scenario.claim_env 0
     Scenario.proof0 5
   = Ok (Scenario.claimed, [Emit (ClaimSubmitted 0 Scenario.finder)])) /\
  status (hunt_at Scenario.claimed 0) = Claimed /\
  @claimTreasure MockVerifier Scenario.withdrawn_once Scenario.claim_env 0
    Scenario.proof0 5 = Err (Revert "Hunt not active").
Proof.
  assert (Hreach : @reachable MockVerifier Scenario.registered).
  { exists [(mkEnv Scenario.creator Scenario.t0, Scenario.registration)]. reflexivity. }
  assert (Hok : @claimTreasure MockVerifier Scenario.registered Scenario.claim_env 0
                  Scenario.proof0 5
                = Ok (Scenario.claimed, [Emit (ClaimSubmitted 0 Scenario.finder)])).
  { vm_compute. reflexivity. }
  destruct (@claimTreasure_single_claim MockVerifier _ _ _ _ _ _ _ Hreach Hok)
    as (_ & (_ & Hst) & Hlater).
  split; [split; assumption|]. split; [exact Hst|].
  exact (proj1 (Hlater [(Scenario.claim_env, Withdraw 0)] Scenario.claim_env
                       Scenario.proof0 5)).
Defined.

Lemma claimTreasure_ignores_commitment_witness :
  exists s' acts,
    @claimTreasure MockVerifier Scenario.registered Scenario.claim_env 0
      Scenario.proof0 5 = Ok (s', acts).
Proof.
  refine (proj1 (@claimTreasure_ignores_commitment MockVerifier
                   Scenario.registered Scenario.claim_env 0 Scenario.proof0 5
                   _ _ _ _ _)).
  - exists [(mkEnv Scenario.creator Scenario.t0, Scenario.registration)]. reflexivity.
  - vm_compute. reflexivity.
  - apply N.leb_le. vm_compute. reflexivity.
  - apply N.ltb_lt. vm_compute. reflexivity.
  - reflexivity.
Defined.

(** ** Accounting *)

Lemma floor_bounds (a : N) : 100 * (a / 100) <= a < 100 * (a / 100 + 1).
Proof.
  split.
  - apply N.Div0.mul_div_le.
  - rewrite N.add_1_r. apply N.mul_succ_div_gt. lia.
Qed.

Lemma pot_conserved_inv s id : ledger_inv s -> pot_conserved s id.
Proof.
  intros Hinv. unfold pot_conserved. rewrite <- (inv_total s Hinv id).
  pose proof (inv_withdrawn s Hinv id) as Hw.
  split; [done|]. split.
  - intros b Hb. apply getPotBalance_Ok in Hb as [_ ->]. by apply pot_of_exact.
  - intros Hfit. apply is_ok_true. eexists. by apply getPotBalance_Ok.
Qed.

Section Isolation.
Context {verifier : IVerifier}.

(** A call touches the storage of the hunt it works on, and of no other. *)
Lemma exec_isolation s e c s' acts j :
  exec s e c = Ok (s', acts) -> j <> target s c -> same_hunt_state s s' j.
Proof.
  intros He Hj. apply exec_cases in He. unfold same_hunt_state.
  destruct c; simpl in Hj.
  - apply createHunt_Ok in He as (_ & _ & _ & _ & _ & _ & _ & _ & -> & _).
    storage. by rewrite decide_False.
  - apply purchaseHint_Ok in He as (_ & _ & _ & _ & _ & -> & _).
    storage. by rewrite !decide_False.
  - apply claimTreasure_Ok in He as (_ & _ & _ & _ & _ & -> & _).
    storage. by rewrite !decide_False.
  - apply withdraw_Ok in He as (? & ? & _ & _ & _ & _ & _ & _ & _ & -> & _).
    storage. by rewrite !decide_False.
  - apply expireHunt_Ok in He as (? & _ & _ & _ & -> & _).
    storage. by rewrite !decide_False.
Qed.

(** C3.  In every reachable ledger state and for every hunt id, the pot
    balance is the initial prize plus the sum of the hunt's contributions
    minus what was withdrawn, and what was withdrawn never exceeds what came
    in; the state after any call that returns, a withdrawal or a hint
    purchase in particular, satisfies the same equation; and a transaction
    leaves the hunt record, claim record, contributions, purchase flags and
    running total of every hunt other than its own as they were. *)
Theorem pot_conservation_and_isolation s :
  reachable s ->
  (forall id, pot_conserved s id) /\
  (forall e v id s' acts,
     purchaseHint s e v id = Ok (s', acts) -> forall j, pot_conserved s' j) /\
  (forall e id s' acts,
     withdraw s e id = Ok (s', acts) -> forall j, pot_conserved s' j) /\
  (forall e c s' acts,
     exec s e c = Ok (s', acts) -> forall j, pot_conserved s' j) /\
  (forall tx j, j <> target s (snd tx) -> same_hunt_state s (transact s tx) j).
Proof.
  intros Hreach. pose proof (ledger_inv_reachable s Hreach) as Hinv.
  split; [|split; [|split; [|split]]].
  - intros id. by apply pot_conserved_inv.
  - intros e v id s' acts Hok j. apply pot_conserved_inv.
    by eapply ledger_inv_purchaseHint.
  - intros e id s' acts Hok j. apply pot_conserved_inv.
    by eapply ledger_inv_withdraw.
  - intros e c s' acts Hok j. apply pot_conserved_inv.
    by eapply ledger_inv_exec.
  - intros tx j Hj.
    destruct (transact_cases s tx) as [(s' & acts & He & ->)|(err & _ & ->)].
    + by eapply exec_isolation.
    + by unfold same_hunt_state.
Qed.

End Isolation.

Lemma pot_conservation_and_isolation_witness :
  @reachable MockVerifier Scenario.hinted /\
  pot_conserved Scenario.hinted 0 /\
  getPotBalance Scenario.hinted 0 = Ok 1001000.
Proof.
  assert (Hreach : @reachable MockVerifier Scenario.hinted).
  { exists [(mkEnv Scenario.creator Scenario.t0, Scenario.registration);
            (mkEnv Scenario.seeker (Scenario.t0 + 5), PurchaseHint 1000 0)].
    reflexivity. }
  split; [exact Hreach|]. split.
  - exact (proj1 (@pot_conservation_and_isolation MockVerifier _ Hreach) 0).
  - vm_compute. reflexivity.
Defined.

(** ** Withdrawals *)

(** C4.  A withdrawal that returns found a positive pot balance [B]; it
    releases [floor (B * 50 / 100)], or all of [B] when that floor is zero,
    to the caller, adds exactly the released amount to [totalWithdrawn],
    sets [lastWithdrawal] to the current time and changes nothing else.
    The floor never exceeds the exact half and the release never exceeds
    the balance. *)
Theorem withdraw_release s e id s' acts :
  withdraw s e id = Ok (s', acts) ->
  exists B amount,
    getPotBalance s id = Ok B /\ 0 < B /\
    amount = release_of B /\
    (B * 50 / 100 = 0 -> amount = B) /\
    (B * 50 / 100 <> 0 -> amount = B * 50 / 100) /\
    100 * (B * 50 / 100) <= B * 50 < 100 * (B * 50 / 100 + 1) /\
    0 < amount <= B /\
    acts = [Transfer (msg_sender e) amount;
            Emit (Withdrawal id (msg_sender e) amount)] /\
    totalWithdrawn (claim_at s' id) = totalWithdrawn (claim_at s id) + amount /\
    lastWithdrawal (claim_at s' id) = block_timestamp e /\
    s' = set_claim s id (with_withdrawal (claim_at s id) (block_timestamp e)
                           (totalWithdrawn (claim_at s id) + amount)).
Proof.
  intros H.
  apply withdraw_Ok in H
    as (B & amount & Hs & Hcl & Hel & Hb & Hpos & Ha & Hfit & -> & ->).
  apply withdrawAmount_of_release in Ha.
  exists B, amount. storage. rewrite decide_True by done. simpl.
  pose proof (release_of_le B). pose proof (release_of_pos B Hpos).
  pose proof (floor_bounds (B * 50)).
  repeat split; try done; try lia.
  intros E. subst amount. unfold release_of, WITHDRAWAL_PERCENT.
  by destruct (N.eqb_spec (B * 50 / 100) 0).
Qed.

Lemma withdraw_release_witness :
  withdraw Scenario.claimed Scenario.claim_env 0
  = Ok (Scenario.withdrawn_once,
        [Transfer Scenario.finder 500000;
         Emit (Withdrawal 0 Scenario.finder 500000)]) /\
  exists B amount,
    getPotBalance Scenario.claimed 0 = Ok B /\ amount = release_of B /\
    totalWithdrawn (claim_at Scenario.withdrawn_once 0)
    = totalWithdrawn (claim_at Scenario.claimed 0) + amount.
Proof.
  assert (Hok : withdraw Scenario.claimed Scenario.claim_env 0
                = Ok (Scenario.withdrawn_once,
                      [Transfer Scenario.finder 500000;
                       Emit (Withdrawal 0 Scenario.finder 500000)])).
  { vm_compute. reflexivity. }
  split; [exact Hok|].
  destruct (withdraw_release _ _ _ _ _ Hok)
    as (B & amount & HB & _ & Ha & _ & _ & _ & _ & _ & Htw & _).
  exists B, amount. auto.
Defined.

Lemma release_of_cases B :
  0 < B ->
  (B = 1 /\ release_of B = 1) \/ (1 < B /\ 0 < release_of B < B).
Proof.
  intros Hpos. unfold release_of, WITHDRAWAL_PERCENT.
  pose proof (floor_bounds (B * 50)) as Hfloor.
  destruct (N.eqb_spec (B * 50 / 100) 0) as [E|E].
  - rewrite E in Hfloor. left. lia.
  - right. apply N.neq_0_lt_0 in E. lia.
Qed.





(** ** Registration *)

Section Registration.
Context {verifier : IVerifier}.

Lemma huntCounter_exec s e c s' acts :
  exec s e c = Ok (s', acts) ->
  huntCounter s' = huntCounter s + (if is_registration c then 1 else 0).
Proof.
  intros He. apply exec_cases in He. destruct c; simpl.
  - apply createHunt_Ok in He as (_ & _ & _ & _ & _ & _ & _ & _ & -> & _). done.
  - apply purchaseHint_Ok in He as (_ & _ & _ & _ & _ & -> & _). simpl. lia.
  - apply claimTreasure_Ok in He as (_ & _ & _ & _ & _ & -> & _). simpl. lia.
  - apply withdraw_Ok in He as (? & ? & _ & _ & _ & _ & _ & _ & _ & -> & _).
    simpl. lia.
  - apply expireHunt_Ok in He as (? & _ & _ & _ & -> & _). simpl. lia.
Qed.

Lemma huntCounter_transact s tx : huntCounter s <= huntCounter (transact s tx).
Proof.
  destruct (transact_cases s tx) as [(s' & acts & He & ->)|(err & _ & ->)]; [|lia].
  apply huntCounter_exec in He. lia.
Qed.



End Registration.




(** ** Hint purchases *)

Section Contributions.
Context {verifier : IVerifier}.

(** Contributions, running totals and purchase flags only grow. *)
Lemma contributions_transact s tx j who :
  contribution_at s j who <= contribution_at (transact s tx) j who /\
  total_at s j <= total_at (transact s tx) j /\
  (purchased_at s j who = true -> purchased_at (transact s tx) j who = true).
Proof.
  destruct (transact_cases s tx) as [(s' & acts & He & ->)|(err & _ & ->)];
    [|by repeat split].
  apply exec_cases in He. destruct tx.2.
  - apply createHunt_Ok in He as (_ & _ & _ & _ & _ & _ & _ & _ & -> & _).
    by repeat split.
  - apply purchaseHint_Ok in He as (_ & _ & Hnot & _ & _ & -> & _).
    split; [|split].
    + storage. case_decide as Hd; [|lia]. destruct Hd as [-> ->]. lia.
    + storage. case_decide; [subst|]; lia.
    + storage. by case_decide.
  - apply claimTreasure_Ok in He as (_ & _ & _ & _ & _ & -> & _). by repeat split.
  - apply withdraw_Ok in He as (? & ? & _ & _ & _ & _ & _ & _ & _ & -> & _).
    by repeat split.
  - apply expireHunt_Ok in He as (? & _ & _ & _ & -> & _). by repeat split.
Qed.

Lemma contributions_run s txs j who :
  contribution_at s j who <= contribution_at (run s txs) j who /\
  total_at s j <= total_at (run s txs) j /\
  (purchased_at s j who = true -> purchased_at (run s txs) j who = true).
Proof.
  apply (run_ind (fun s' =>
           contribution_at s j who <= contribution_at s' j who /\
           total_at s j <= total_at s' j /\
           (purchased_at s j who = true -> purchased_at s' j who = true)));
    [|by repeat split].
  intros s1 tx (Hc & Ht & Hp).
  destruct (contributions_transact s1 tx j who) as (Hc1 & Ht1 & Hp1).
  split; [lia|]. split; [lia|auto].
Qed.

End Contributions.

(** When [purchaseHint] returns, provided the sums it forms fit in 256 bits. *)
Lemma purchaseHint_guards s e v id :
  contribution_at s id (msg_sender e) + v <= MAX_UINT256 ->
  total_at s id + v <= MAX_UINT256 ->
  is_ok (purchaseHint s e v id) = true <->
  status (hunt_at s id) = Active /\
  hintPrice (hunt_at s id) <= v /\
  purchased_at s id (msg_sender e) = false.
Proof.
  intros Hc Ht. rewrite is_ok_true. split.
  - intros [[s' acts] H]. apply purchaseHint_Ok in H. tauto.
  - intros (Hs & Hp & Hn). eexists (_, _). apply purchaseHint_Ok.
    repeat split; done.
Qed.

(** C9.  Provided the sums formed fit in 256 bits, [purchaseHint] returns
    exactly when the hunt is Active, the payment is at least the hint price
    and the caller has not bought a hint for the hunt before.  A payment
    below the price is rejected; a purchase that returns adds exactly the
    payment to the caller's contribution and to the hunt's running total,
    after which every further purchase by the same identity on that hunt is
    rejected; and no transaction ever lowers a contribution or a running
    total. *)
Theorem purchaseHint_once s e v id :
  contribution_at s id (msg_sender e) + v <= MAX_UINT256 ->
  total_at s id + v <= MAX_UINT256 ->
  (is_ok (purchaseHint s e v id) = true <->
     status (hunt_at s id) = Active /\
     hintPrice (hunt_at s id) <= v /\
     purchased_at s id (msg_sender e) = false) /\
  (v < hintPrice (hunt_at s id) ->
     is_ok (purchaseHint s e v id) = false /\
     (status (hunt_at s id) = Active ->
      purchaseHint s e v id = Err (Revert "Insufficient payment"))) /\
  (forall s' acts,
     purchaseHint s e v id = Ok (s', acts) ->
     contribution_at s' id (msg_sender e) = contribution_at s id (msg_sender e) + v /\
     total_at s' id = total_at s id + v /\
     (forall (V : IVerifier) txs e2 v2,
        msg_sender e2 = msg_sender e ->
        is_ok (purchaseHint (run s' txs) e2 v2 id) = false /\
        (status (hunt_at (run s' txs) id) = Active ->
         hintPrice (hunt_at (run s' txs) id) <= v2 ->
         purchaseHint (run s' txs) e2 v2 id = Err (Revert "Already purchased")))) /\
  (forall (V : IVerifier) txs j who,
     contribution_at s j who <= contribution_at (run s txs) j who /\
     total_at s j <= total_at (run s txs) j).
Proof.
  intros Hc Ht. split; [by apply purchaseHint_guards|]. split; [|split].
  - intros Hlow. split.
    + apply not_true_is_false. intros Hyes.
      apply purchaseHint_guards in Hyes; [lia|done|done].
    + intros Hs. unfold purchaseHint.
      rewrite (require_true (status_eqb _ _)) by (by apply status_eqb_true). simpl.
      destruct (N.leb_spec (hintPrice (hunt_at s id)) v); [lia|done].
  - intros s' acts H.
    apply purchaseHint_Ok in H as (Hs & Hp & Hn & _ & _ & -> & _).
    set (s' := set_purchased _ _ _ _).
    assert (Hflag : purchased_at s' id (msg_sender e) = true).
    { subst s'. storage. by rewrite decide_True. }
    split; [|split].
    + subst s'. storage. by rewrite decide_True.
    + subst s'. storage. by rewrite decide_True.
    + intros V txs e2 v2 Hsame.
      destruct (contributions_run s' txs id (msg_sender e)) as (_ & _ & Hkeep).
      specialize (Hkeep Hflag). rewrite <- Hsame in Hkeep. split.
      * apply not_true_is_false. intros Hyes. apply is_ok_true in Hyes as [[s2 a2] H2].
        apply purchaseHint_Ok in H2 as (_ & _ & Hn2 & _). congruence.
      * intros Hs2 Hp2. unfold purchaseHint.
        rewrite (require_true (status_eqb _ _)) by (by apply status_eqb_true).
        rewrite (require_true (_ <=? v2)) by (by apply N.leb_le).
        simpl. by rewrite Hkeep.
  - intros V txs j who.
    destruct (contributions_run s txs j who) as (? & ? & _). done.
Qed.

Lemma purchaseHint_once_witness :
  is_ok (purchaseHint Scenario.registered (mkEnv Scenario.seeker (Scenario.t0 + 5))
           1000 0) = true /\
  purchaseHint Scenario.registered (mkEnv Scenario.seeker (Scenario.t0 + 5)) 999 0
  = Err (Revert "Insufficient payment") /\
  purchaseHint Scenario.hinted (mkEnv Scenario.seeker (Scenario.t0 + 6)) 1000 0
  = Err (Revert "Already purchased").
Proof.
  assert (Hfit : forall v, v <= 1000 ->
            contribution_at Scenario.registered 0
              (msg_sender (mkEnv Scenario.seeker (Scenario.t0 + 5))) + v
            <= MAX_UINT256 /\
            total_at Scenario.registered 0 + v <= MAX_UINT256).
  { intros v Hv.
    replace (contribution_at Scenario.registered 0 _) with 0 by (vm_compute; reflexivity).
    replace (total_at Scenario.registered 0) with 0 by (vm_compute; reflexivity).
    assert (1000 <= MAX_UINT256) by (apply N.leb_le; vm_compute; reflexivity).
    lia. }
  assert (Hstatus : status (hunt_at Scenario.registered 0) = Active).
  { vm_compute. reflexivity. }
  split; [|split].
  - destruct (Hfit 1000 ltac:(lia)) as [Hc Ht].
    apply (proj1 (purchaseHint_once _ _ 1000 0 Hc Ht)).
    split; [exact Hstatus|]. split.
    + apply N.leb_le. vm_compute. reflexivity.
    + vm_compute. reflexivity.
  - destruct (Hfit 999 ltac:(lia)) as [Hc Ht].
    apply (proj1 (proj2 (purchaseHint_once _ _ 999 0 Hc Ht))); [|exact Hstatus].
    apply N.ltb_lt. vm_compute. reflexivity.
  - destruct (Hfit 1000 ltac:(lia)) as [Hc Ht].
    destruct (proj1 (proj2 (proj2 (purchaseHint_once _ _ 1000 0 Hc Ht)))
                Scenario.hinted
                [Emit (HintPurchased 0 Scenario.seeker 1000)]) as (_ & _ & Hagain).
    + vm_compute. reflexivity.
    + apply (Hagain MockVerifier [] (mkEnv Scenario.seeker (Scenario.t0 + 6)) 1000).
      * reflexivity.
      * vm_compute. reflexivity.
      * apply N.leb_le. vm_compute. reflexivity.
Defined.

(** ** Expiry *)


(** On success the hunt becomes Expired and the whole pot goes to the
    hider recorded at registration. *)
Lemma expireHunt_refund s e id s' acts :
  expireHunt s e id = Ok (s', acts) ->
  status (hunt_at s' id) = Expired /\
  exists b, getPotBalance s id = Ok b /\
    acts = (if 0 <? b then [Transfer (hider (hunt_at s id)) b] else [])
           ++ [Emit (HuntExpired id)].
Proof.
  intros H. apply expireHunt_Ok in H as (b & Hs & Hexp & Hb & -> & ->).
  storage. rewrite decide_True by done. eauto.
Qed.

(** No claim at or after the deadline, whatever the verifier says. *)
Lemma claimTreasure_after_expiry `{IVerifier} s e id pf cc :
  expiresAt (hunt_at s id) <= block_timestamp e ->
  is_ok (claimTreasure s e id pf cc) = false.
Proof.
  intros Hexp. apply not_true_is_false. intros Hyes.
  apply is_ok_true in Hyes as [[s' acts] Hok].
  apply claimTreasure_Ok in Hok as (_ & _ & Hlt & _). lia.
Qed.

Section Terminal.
Context {verifier : IVerifier}.

(** A registered hunt that is Expired stays Expired. *)
Lemma expired_transact s id tx :
  id < huntCounter s -> status (hunt_at s id) = Expired ->
  id < huntCounter (transact s tx) /\ status (hunt_at (transact s tx) id) = Expired.
Proof.
  intros Hreg Hexp. pose proof (huntCounter_transact s tx) as Hmono.
  split; [lia|].
  destruct (transact_cases s tx) as [(s' & acts & He & ->)|(err & _ & ->)]; [|done].
  apply exec_cases in He. destruct tx.2.
  - apply createHunt_Ok in He as (_ & _ & _ & _ & _ & _ & _ & _ & -> & _).
    storage. rewrite decide_False by lia. done.
  - apply purchaseHint_Ok in He as (_ & _ & _ & _ & _ & -> & _). by storage.
  - apply claimTreasure_Ok in He as (Hs & _ & _ & _ & _ & -> & _).
    storage. case_decide; [subst; congruence|done].
  - apply withdraw_Ok in He as (? & ? & _ & _ & _ & _ & _ & _ & _ & -> & _).
    by storage.
  - apply expireHunt_Ok in He as (? & Hs & _ & _ & -> & _).
    storage. case_decide; [subst; congruence|done].
Qed.

Lemma expired_run s id txs :
  id < huntCounter s -> status (hunt_at s id) = Expired ->
  status (hunt_at (run s txs) id) = Expired.
Proof.
  intros Hreg Hexp.
  enough (id < huntCounter (run s txs) /\ status (hunt_at (run s txs) id) = Expired)
    by tauto.
  apply run_ind; [|done]. intros s1 tx [Hreg1 Hexp1]. by apply expired_transact.
Qed.

End Terminal.

(** C8.  On the freshly deployed ledger anybody can expire hunt id 0, which
    was never registered: its default status is Active and its default
    deadline 0.  The id is then stored as Expired, and the first
    registration, which is handed id 0, stores it as Active again: a stored
    status leaves Expired. *)
Theorem expired_id_registered_again (V : IVerifier) :
  let s1 := transact init (Scenario.expiry_env, ExpireHunt 0) in
  let s2 := transact s1 (mkEnv Scenario.creator Scenario.t0, Scenario.registration) in
  exec init Scenario.expiry_env (ExpireHunt 0)
  = Ok (s1, [Emit (HuntExpired 0)]) /\
  status (hunt_at s1 0) = Expired /\
  exec s1 (mkEnv Scenario.creator Scenario.t0) Scenario.registration
  = Ok (s2, [Emit (HuntCreated 0 Scenario.creator 42 1000000 (Scenario.t0 + 86400))]) /\
  status (hunt_at s2 0) = Active.
Proof. vm_compute. repeat split; reflexivity. Qed.

(** C10.  An [expireHunt] that returns rewrites the status of its hunt and
    nothing else: the hunt counter, the other fields of the hunt, every
    other hunt, the claims, the contributions, the purchase flags and the
    running totals are as before.  The refund is not booked in
    [totalWithdrawn], so [getPotBalance] returns after the expiry what it
    returned before it: a positive amount for every registered hunt, which
    is the very amount the call pays out to the hider. *)
Theorem expireHunt_frame s e id s' acts :
  expireHunt s e id = Ok (s', acts) ->
  hunt_at s' id = with_status (hunt_at s id) Expired /\
  (forall j, j <> id -> hunt_at s' j = hunt_at s j) /\
  huntCounter s' = huntCounter s /\
  claims s' = claims s /\
  contributions s' = contributions s /\
  hasPurchasedHint s' = hasPurchasedHint s /\
  totalContributions s' = totalContributions s /\
  initialPrize (hunt_at s' id) = initialPrize (hunt_at s id) /\
  totalWithdrawn (claim_at s' id) = totalWithdrawn (claim_at s id) /\
  exists b,
    getPotBalance s id = Ok b /\
    getPotBalance s' id = Ok b /\
    (0 < b -> acts = [Transfer (hider (hunt_at s id)) b; Emit (HuntExpired id)]) /\
    (forall V : IVerifier, reachable s -> id < huntCounter s -> 0 < b).
Proof.
  intros H. apply expireHunt_Ok in H as (b & Hs & Hexp & Hb & -> & ->).
  storage. rewrite decide_True by done. simpl.
  repeat split; try done.
  - intros j Hj. storage. by rewrite decide_False.
  - exists b. split; [done|]. split; [|split].
    + apply getPotBalance_Ok in Hb as [Hfit ->]. apply getPotBalance_Ok.
      storage. by rewrite decide_True.
    + intros Hpos. by rewrite (proj2 (N.ltb_lt 0 b) Hpos).
    + intros V Hreach Hreg. pose proof (ledger_inv_reachable s Hreach) as Hinv.
      destruct (inv_registered s Hinv id Hreg) as (Hprize & _).
      apply getPotBalance_Ok in Hb as [Hfit ->].
      rewrite (inv_claim s Hinv id) by congruence. simpl. unfold pot_of.
      destruct (N.ltb_spec 0 (initialPrize (hunt_at s id) + total_at s id)); lia.
Qed.

Lemma expireHunt_frame_witness :
  expireHunt Scenario.registered Scenario.expiry_env 0
  = Ok (Scenario.expired,
        [Transfer Scenario.creator 1000000; Emit (HuntExpired 0)]) /\
  exists b,
    getPotBalance Scenario.registered 0 = Ok b /\
    getPotBalance Scenario.expired 0 = Ok b /\ 0 < b.
Proof.
  assert (Hok : expireHunt Scenario.registered Scenario.expiry_env 0
                = Ok (Scenario.expired,
                      [Transfer Scenario.creator 1000000; Emit (HuntExpired 0)])).
  { vm_compute. reflexivity. }
  split; [exact Hok|].
  destruct (expireHunt_frame _ _ _ _ _ Hok)
    as (_ & _ & _ & _ & _ & _ & _ & _ & _ & b & Hb & Hb' & _ & Hpos).
  exists b. split; [exact Hb|]. split; [exact Hb'|].
  apply (Hpos MockVerifier).
  - exists [(mkEnv Scenario.creator Scenario.t0, Scenario.registration)]. reflexivity.
  - apply N.ltb_lt. vm_compute. reflexivity.
Defined.

(** ** The distance check *)

Module CircuitFacts.
Import Circuit.
Local Open Scope Z_scope.

Lemma p_large : 2 ^ 65 < p.
Proof. reflexivity. Qed.

Lemma F_small z : 0 <= z < p -> F z = z.
Proof. apply Z.mod_small. Qed.

(** The linear combination of [Num2Bits] rebuilds the low bits of its input. *)
Lemma Num2Bits_lc_bits (v : Z) (n k : nat) (e2 : Z) :
  Num2Bits_lc e2
    (map (fun i => Z.land (Z.shiftr v (Z.of_nat i)) 1) (seq k n))
  = e2 * ((v / 2 ^ Z.of_nat k) mod 2 ^ Z.of_nat n).
Proof.
  revert k e2. induction n as [|n IH]; intros k e2.
  - simpl. rewrite Z.mod_1_r. lia.
  - cbn [seq map Num2Bits_lc]. rewrite IH.
    rewrite Z.shiftr_div_pow2 by lia.
    change 1 with (Z.ones 1) at 1. rewrite Z.land_ones by lia.
    rewrite !Nat2Z.inj_succ, !Z.pow_succ_r by lia.
    rewrite (Z.rem_mul_r _ 2 (2 ^ Z.of_nat n)) by lia.
    assert (0 < 2 ^ Z.of_nat k) by (apply Z.pow_pos_nonneg; lia).
    rewrite (Z.mul_comm 2 (2 ^ Z.of_nat k)), <- Z.div_div by lia.
    change (2 ^ 1) with 2. ring.
Qed.

Lemma Num2Bits_fits (n : nat) (v : Z) :
  0 <= v < 2 ^ Z.of_nat n -> 2 ^ Z.of_nat n <= p ->
  Num2Bits n v = Some (Num2Bits_out n v).
Proof.
  intros Hv Hp. unfold Num2Bits, Num2Bits_out.
  rewrite Num2Bits_lc_bits. change (2 ^ Z.of_nat 0) with 1.
  rewrite Z.div_1_r, Z.mul_1_l, (Z.mod_small v) by lia.
  rewrite F_small by lia. by rewrite Z.eqb_refl.
Qed.

Lemma Num2Bits_out_nth (n i : nat) (v : Z) :
  (i < n)%nat ->
  nth i (Num2Bits_out n v) 0 = (v / 2 ^ Z.of_nat i) mod 2.
Proof.
  intros Hi. unfold Num2Bits_out.
  rewrite (nth_indep _ 0 (Z.land (Z.shiftr v (Z.of_nat 0)) 1))
    by (rewrite length_map, length_seq; lia).
  rewrite (map_nth (fun i => Z.land (Z.shiftr v (Z.of_nat i)) 1)).
  rewrite seq_nth by lia. simpl Nat.add.
  rewrite Z.shiftr_div_pow2 by lia.
  change 1 with (Z.ones 1). by rewrite Z.land_ones by lia.
Qed.

(** [LessThan(64)] on 64-bit inputs is the strict comparison. *)
Lemma LessThan_64 (x y : Z) :
  0 <= x < 2 ^ 64 -> 0 <= y < 2 ^ 64 ->
  LessThan 64 x y = Some (if x <? y then 1 else 0).
Proof.
  intros Hx Hy. unfold LessThan. rewrite Z.shiftl_1_l.
  change (Z.of_nat 64) with 64.
  pose proof p_large as Hp.
  assert (H65 : 2 ^ 65 = 2 * 2 ^ 64) by reflexivity.
  rewrite (F_small (x + 2 ^ 64 - y)) by lia.
  rewrite Num2Bits_fits;
    [|change (Z.of_nat (64 + 1)) with 65; lia|change (Z.of_nat (64 + 1)) with 65; lia].
  cbn [mbind option_bind]. rewrite Num2Bits_out_nth by lia.
  change (Z.of_nat 64) with 64.
  destruct (Z.ltb_spec x y) as [Hlt|Hge].
  - rewrite Z.div_small by lia. reflexivity.
  - replace (x + 2 ^ 64 - y) with (1 * 2 ^ 64 + (x - y)) by lia.
    rewrite Z.div_add_l by lia. rewrite (Z.div_small (x - y)) by lia. reflexivity.
Qed.

Lemma square_bound (d M : Z) : - M <= d <= M -> 0 <= d * d <= M * M.
Proof.
  intros Hd. split; [apply Z.square_nonneg|].
  destruct (Z.le_ge_cases 0 d).
  - apply Z.mul_le_mono_nonneg; lia.
  - replace (d * d) with ((- d) * (- d)) by ring.
    apply Z.mul_le_mono_nonneg; lia.
Qed.

Lemma DistanceCheck_signals (gpsLat gpsLon targetLat targetLon : Z) :
  coordinate gpsLat -> coordinate gpsLon ->
  coordinate targetLat -> coordinate targetLon ->
  let latDiff := F (F gpsLat - F targetLat) in
  let lonDiff := F (F gpsLon - F targetLon) in
  F (F (latDiff * latDiff) + F (lonDiff * lonDiff))
  = Gps.distanceSquared gpsLat gpsLon targetLat targetLon /\
  0 <= Gps.distanceSquared gpsLat gpsLon targetLat targetLon < 2 ^ 64.
Proof.
  unfold coordinate. intros H1 H2 H3 H4. simpl. unfold F, Gps.distanceSquared.
  rewrite <- !Zminus_mod, <- !Zmult_mod, <- Zplus_mod.
  assert (Hp : 2 ^ 64 < p) by reflexivity.
  assert (H64 : 2 ^ 64 = 18446744073709551616) by reflexivity.
  assert (0 <= (gpsLat - targetLat) * (gpsLat - targetLat) <= 360000000 * 360000000)
    by (apply square_bound; lia).
  assert (0 <= (gpsLon - targetLon) * (gpsLon - targetLon) <= 360000000 * 360000000)
    by (apply square_bound; lia).
  split; [apply Z.mod_small|]; lia.
Qed.

(** On coordinates in range and a 64-bit radius, the circuit accepts
    exactly the positions whose squared distance is strictly below the
    squared radius. *)
Lemma accepts_strict (gpsLat gpsLon targetLat targetLon radiusSquared : Z) :
  coordinate gpsLat -> coordinate gpsLon ->
  coordinate targetLat -> coordinate targetLon ->
  0 <= radiusSquared < 2 ^ 64 ->
  accepts gpsLat gpsLon targetLat targetLon radiusSquared = true <->
  Gps.distanceSquared gpsLat gpsLon targetLat targetLon < radiusSquared.
Proof.
  intros H1 H2 H3 H4 Hr. unfold accepts, DistanceCheck.
  destruct (DistanceCheck_signals gpsLat gpsLon targetLat targetLon H1 H2 H3 H4)
    as [-> Hd].
  pose proof p_large.
  rewrite (F_small radiusSquared) by lia.
  rewrite LessThan_64 by lia.
  destruct (Z.ltb_spec (Gps.distanceSquared gpsLat gpsLon targetLat targetLon)
              radiusSquared); split; (done || lia).
Qed.

End CircuitFacts.

(** C6.  The finder stands 100 scaled units north of the target and the
    squared radius is 10000: the squared distance equals the squared radius,
    and [isWithinRadius] of [gps.js] says yes.  The circuit's
    [DistanceCheck] compares with [LessThan] and outputs 0, so the
    constraint [withinRange === 1] of [TreasureClaim] has no witness and
    the position is rejected. *)
Theorem distance_boundary_rejected :
  let gpsLat := 37775000%Z in
  let gpsLon := (-122419400)%Z in
  let targetLat := 37774900%Z in
  let targetLon := (-122419400)%Z in
  let radiusSquared := 10000%Z in
  Gps.distanceSquared gpsLat gpsLon targetLat targetLon = radiusSquared /\
  Gps.isWithinRadius gpsLat gpsLon targetLat targetLon = true /\
  Circuit.DistanceCheck (Circuit.F gpsLat) (Circuit.F gpsLon) (Circuit.F targetLat)
    (Circuit.F targetLon) (Circuit.F radiusSquared) = Some 0%Z /\
  Circuit.accepts gpsLat gpsLon targetLat targetLon radiusSquared = false /\
  forall Poseidon1 Poseidon3 secret claimerAddress,
    Circuit.TreasureClaim Poseidon1 Poseidon3 secret (Circuit.F gpsLat)
      (Circuit.F gpsLon) (Circuit.F targetLat) (Circuit.F targetLon)
      (Circuit.F radiusSquared) claimerAddress = None.
Proof.
  repeat split; vm_compute; reflexivity.
Qed.

(** ** The scenarios of the specification *)

(** Scenarios 3 and 4: the first withdrawal releases 500000 and leaves
    500000; the next one, a day later, releases 250000 and leaves 250000. *)
Example scenario_withdrawals :
  getPotBalance Scenario.withdrawn_once 0 = Ok 500000 /\
  withdraw Scenario.withdrawn_once Scenario.claim_env 0
  = Err (Revert "Withdrawal too soon") /\
  withdraw Scenario.withdrawn_once Scenario.later_env 0
  = Ok (Scenario.withdrawn_twice,
        [Transfer Scenario.finder 250000;
         Emit (Withdrawal 0 Scenario.finder 250000)]) /\
  getPotBalance Scenario.withdrawn_twice 0 = Ok 250000.
Proof. repeat split; vm_compute; reflexivity. Qed.

(** Scenario 2: one second before [claimableAfter] the claim is refused. *)
Example scenario_lockout :
  @claimTreasure MockVerifier Scenario.registered
    (mkEnv Scenario.finder (Scenario.t0 + 86400 - 1)) 0 Scenario.proof0 5
  = Err (Revert "Still in lockout period").
Proof. vm_compute. reflexivity. Qed.

(** * Further properties of the contract *)


(** What [withdraw] leaves in the pot. *)
Lemma pot_after_withdraw s e id s' acts B :
  withdraw s e id = Ok (s', acts) ->
  getPotBalance s id = Ok B ->
  getPotBalance s' id = Ok (B - release_of B).
Proof.
  intros Hok HB.
  apply withdraw_Ok in Hok
    as (B' & amount & Hs & Hcl & Hel & Hb & Hpos & Ha & Hfit & -> & ->).
  rewrite HB in Hb. injection Hb as <-.
  apply withdrawAmount_of_release in Ha. subst amount.
  apply getPotBalance_Ok in HB as [Hfit0 HB]. apply getPotBalance_Ok.
  storage. rewrite decide_True by done. simpl. split; [done|].
  pose proof (release_of_le B) as Hle. unfold pot_of in *.
  destruct (N.ltb_spec (totalWithdrawn (claim_at s id))
              (initialPrize (hunt_at s id) + total_at s id));
    destruct (N.ltb_spec (totalWithdrawn (claim_at s id) + release_of B)
                (initialPrize (hunt_at s id) + total_at s id)); lia.
Qed.

Section AfterClaim.
Context {verifier : IVerifier}.


End AfterClaim.






(** X4.  [getHunt] reports the current pot in place of the stored prize:
    in a reachable state the reported prize plus what was withdrawn is the
    initial prize plus the running total, a hint purchase raises the
    reported prize by the payment (as long as the pot still fits in 256
    bits) and a withdrawal lowers it by the amount paid out, the other
    components staying as they are. *)
Theorem getHunt_prize_tracks_pot `{IVerifier} s id view :
  reachable s ->
  getHunt s id = Ok view ->
  view_prize view + totalWithdrawn (claim_at s id)
  = initialPrize (hunt_at s id) + total_at s id /\
  (forall e pay s' acts,
     purchaseHint s e pay id = Ok (s', acts) ->
     initialPrize (hunt_at s id) + total_at s id + pay <= MAX_UINT256 ->
     getHunt s' id
     = Ok (mkHuntView (view_hider view) (view_locationCommitment view)
             (view_prize view + pay) (view_claimableAfter view)
             (view_expiresAt view) (view_hintPrice view) (view_status view))) /\
  (forall e s' to amount rest,
     withdraw s e id = Ok (s', Transfer to amount :: rest) ->
     amount <= view_prize view /\
     getHunt s' id
     = Ok (mkHuntView (view_hider view) (view_locationCommitment view)
             (view_prize view - amount) (view_claimableAfter view)
             (view_expiresAt view) (view_hintPrice view) (view_status view))).
Proof.
  intros Hreach Hview. pose proof (ledger_inv_reachable s Hreach) as Hinv.
  unfold getHunt in Hview. apply bind_Ok in Hview as (pot & Hpot & [= <-]). simpl.
  pose proof (inv_withdrawn s Hinv id) as Hw.
  pose proof Hpot as Hpot'. apply getPotBalance_Ok in Hpot' as [Hfit Hval].
  split; [|split].
  - subst pot. by apply pot_of_exact.
  - intros e pay s' acts Hok Hroom.
    apply purchaseHint_Ok in Hok as (Hs & Hp & Hn & _ & Hft & -> & ->).
    unfold getHunt.
    assert (Hpot2 : getPotBalance
                      (set_purchased
                         (set_total
                            (set_contribution s id (msg_sender e)
                               (contribution_at s id (msg_sender e) + pay))
                            id (total_at s id + pay)) id (msg_sender e) true) id
                    = Ok (pot + pay)).
    { apply getPotBalance_Ok. storage. rewrite decide_True by done.
      rewrite (inv_claim s Hinv id) in * by congruence. simpl in *.
      split; [lia|]. subst pot. unfold pot_of.
      destruct (N.ltb_spec 0 (initialPrize (hunt_at s id) + total_at s id));
        destruct (N.ltb_spec 0 (initialPrize (hunt_at s id) + (total_at s id + pay)));
        lia. }
    rewrite Hpot2. simpl. by storage.
  - intros e s' to amount rest Hok.
    pose proof (pot_after_withdraw _ _ _ _ _ _ Hok Hpot) as Hpot2.
    apply withdraw_Ok in Hok
      as (B & amt & Hs & Hcl & Hel & Hb & Hpos & Ha & Hfitw & -> & [= -> -> ->]).
    rewrite Hpot in Hb. injection Hb as <-.
    apply withdrawAmount_of_release in Ha. subst amt.
    split; [apply release_of_le|].
    unfold getHunt. rewrite Hpot2. simpl. by storage.
Qed.

Lemma getHunt_prize_tracks_pot_witness :
  getHunt Scenario.hinted 0
  = Ok (mkHuntView Scenario.creator 42 1001000 (Scenario.t0 + 86400)
          (Scenario.t0 + 1209600) 1000 Active).
Proof.
  assert (Hreach : @reachable MockVerifier Scenario.registered).
  { exists [(mkEnv Scenario.creator Scenario.t0, Scenario.registration)]. reflexivity. }
  assert (Hview : getHunt Scenario.registered 0
                  = Ok (mkHuntView Scenario.creator 42 1000000 (Scenario.t0 + 86400)
                          (Scenario.t0 + 1209600) 1000 Active)).
  { vm_compute. reflexivity. }
  destruct (@getHunt_prize_tracks_pot MockVerifier _ _ _ Hreach Hview)
    as (_ & Hbuy & _).
  refine (Hbuy (mkEnv Scenario.seeker (Scenario.t0 + 5)) 1000 Scenario.hinted
               [Emit (HintPurchased 0 Scenario.seeker 1000)] _ _).
  - vm_compute. reflexivity.
  - apply N.leb_le. vm_compute. reflexivity.
Defined.

Lemma release_of_half B :
  1 < B -> 2 * release_of B <= B < 2 * release_of B + 2.
Proof.
  intros HB. unfold release_of, WITHDRAWAL_PERCENT.
  pose proof (floor_bounds (B * 50)) as Hfloor.
  destruct (N.eqb_spec (B * 50 / 100) 0) as [E|E]; [rewrite E in Hfloor|]; lia.
Qed.

(** X5.  Every withdrawal that returns shrinks the pot: a pot of one unit is
    emptied, a larger pot is left with its half, rounded up. *)
Theorem withdraw_halves_pot s e id s' acts B :
  withdraw s e id = Ok (s', acts) ->
  getPotBalance s id = Ok B ->
  exists B',
    getPotBalance s' id = Ok B' /\
    B' < B /\
    (B = 1 -> B' = 0) /\
    (1 < B -> B <= 2 * B' <= B + 1).
Proof.
  intros Hok HB. exists (B - release_of B).
  split; [by eapply pot_after_withdraw|].
  apply withdraw_Ok in Hok as (B0 & _ & _ & _ & _ & Hb & Hpos & _).
  rewrite HB in Hb. injection Hb as <-.
  destruct (release_of_cases B Hpos) as [[-> Hr]|[Hbig Hr]].
  - rewrite Hr. lia.
  - pose proof (release_of_half B Hbig). lia.
Qed.

Lemma withdraw_halves_pot_witness :
  exists B', getPotBalance Scenario.withdrawn_once 0 = Ok B' /\ B' < 1000000.
Proof.
  destruct (withdraw_halves_pot Scenario.claimed Scenario.claim_env 0
              Scenario.withdrawn_once
              [Transfer Scenario.finder 500000;
               Emit (Withdrawal 0 Scenario.finder 500000)] 1000000)
    as (B' & HB' & Hlt & _).
  - vm_compute. reflexivity.
  - vm_compute. reflexivity.
  - exists B'. split; assumption.
Defined.

(** X6.  The script [withdraw.js] announces [(potBalance * 50) / 100].  That
    is what [withdraw] pays out for every pot above one unit; on a pot of
    exactly one unit the script announces 0 and the contract pays 1. *)
Theorem withdraw_script_amount s e id s' to amount rest B :
  withdraw s e id = Ok (s', Transfer to amount :: rest) ->
  getPotBalance s id = Ok B ->
  (1 < B -> amount = WithdrawScript.withdrawAmount B) /\
  (B = 1 -> WithdrawScript.withdrawAmount B = 0 /\ amount = 1) /\
  0 < B.
Proof.
  intros Hok HB.
  apply withdraw_Ok in Hok
    as (B0 & amt & _ & _ & _ & Hb & Hpos & Ha & _ & _ & [= -> -> ->]).
  rewrite HB in Hb. injection Hb as <-.
  apply withdrawAmount_of_release in Ha. subst amt.
  unfold WithdrawScript.withdrawAmount, release_of, WITHDRAWAL_PERCENT.
  pose proof (floor_bounds (B * 50)) as Hfloor.
  split; [|split; [|done]].
  - intros Hbig. destruct (N.eqb_spec (B * 50 / 100) 0) as [E|E]; [|done].
    rewrite E in Hfloor. lia.
  - intros ->. by vm_compute.
Qed.

Lemma withdraw_script_amount_witness :
  500000 = WithdrawScript.withdrawAmount 1000000.
Proof.
  refine (proj1 (withdraw_script_amount Scenario.claimed Scenario.claim_env 0
                   Scenario.withdrawn_once Scenario.finder 500000
                   [Emit (Withdrawal 0 Scenario.finder 500000)] 1000000 _ _) _).
  - vm_compute. reflexivity.
  - vm_compute. reflexivity.
  - apply N.ltb_lt. reflexivity.
Defined.

Section Payments.
Context {verifier : IVerifier}.

(** X7.  Ether leaves the contract in two ways only: [withdraw] pays the
    caller, who is the recorded claimer of a Claimed hunt, at most its pot;
    [expireHunt] pays the stored hider of a hunt that was Active and past
    its deadline exactly its pot.  No other call asks for a transfer. *)
Theorem transfers_only_to_claimer_or_hider s e c s' acts to amount :
  exec s e c = Ok (s', acts) ->
  In (Transfer to amount) acts ->
  (exists id B,
     c = Withdraw id /\ status (hunt_at s id) = Claimed /\
     to = msg_sender e /\ to = claimer (claim_at s id) /\
     getPotBalance s id = Ok B /\ 0 < amount <= B) \/
  (exists id,
     c = ExpireHunt id /\ status (hunt_at s id) = Active /\
     expiresAt (hunt_at s id) <= block_timestamp e /\
     to = hider (hunt_at s id) /\
     getPotBalance s id = Ok amount /\ 0 < amount).
Proof.
  intros He Hin. apply exec_cases in He. destruct c.
  - apply createHunt_Ok in He as (_ & _ & _ & _ & _ & _ & _ & _ & _ & ->).
    simpl in Hin. destruct Hin as [?|[]]; done.
  - apply purchaseHint_Ok in He as (_ & _ & _ & _ & _ & _ & ->).
    simpl in Hin. destruct Hin as [?|[]]; done.
  - apply claimTreasure_Ok in He as (_ & _ & _ & _ & _ & _ & ->).
    simpl in Hin. destruct Hin as [?|[]]; done.
  - apply withdraw_Ok in He
      as (B & amt & Hs & Hcl & _ & Hb & Hpos & Ha & _ & _ & ->).
    apply withdrawAmount_of_release in Ha. subst amt.
    simpl in Hin. destruct Hin as [[= <- <-]|[?|[]]]; [|done].
    left. exists _huntId, B.
    pose proof (release_of_le B). pose proof (release_of_pos B Hpos).
    repeat split; first [done|lia].
  - apply expireHunt_Ok in He as (B & Hs & Hexp & Hb & _ & ->).
    destruct (N.ltb_spec 0 B) as [Hpos|_]; simpl in Hin.
    + destruct Hin as [[= <- <-]|[?|[]]]; [|done].
      right. exists _huntId. repeat split; done.
    + destruct Hin as [?|[]]; done.
Qed.

(** X8.  Every call that returns emits exactly one event, after the
    transfer if there is one; the event carries the id of the hunt the
    call worked on, and a [Withdrawal] event the amount transferred. *)
Theorem one_event_per_call s e c s' acts :
  exec s e c = Ok (s', acts) ->
  exists ev,
    event_huntId ev = target s c /\
    (acts = [Emit ev] \/
     exists to amount, acts = [Transfer to amount; Emit ev] /\
       (forall id who paid, ev = Withdrawal id who paid -> who = to /\ paid = amount)).
Proof.
  intros He. apply exec_cases in He. destruct c.
  - apply createHunt_Ok in He as (_ & _ & _ & _ & _ & _ & _ & _ & _ & ->).
    eexists. split; [|by left]. done.
  - apply purchaseHint_Ok in He as (_ & _ & _ & _ & _ & _ & ->).
    eexists. split; [|by left]. done.
  - apply claimTreasure_Ok in He as (_ & _ & _ & _ & _ & _ & ->).
    eexists. split; [|by left]. done.
  - apply withdraw_Ok in He as (B & amt & _ & _ & _ & _ & _ & _ & _ & _ & ->).
    eexists. split; [|right; eexists _, _; split; [done|]]; [done|].
    by intros id who paid [= _ <- <-].
  - apply expireHunt_Ok in He as (B & _ & _ & _ & _ & ->).
    exists (HuntExpired _huntId). split; [done|].
    destruct (0 <? B); simpl; [right|by left].
    eexists _, _. split; [done|]. intros id who paid [=].
Qed.

End Payments.

Lemma transfers_only_to_claimer_or_hider_witness :
  (exists id B,
     Withdraw 0 = Withdraw id /\ status (hunt_at Scenario.claimed id) = Claimed /\
     Scenario.finder = msg_sender Scenario.claim_env /\
     Scenario.finder = claimer (claim_at Scenario.claimed id) /\
     getPotBalance Scenario.claimed id = Ok B /\ 0 < 500000 <= B) \/
  (exists id,
     Withdraw 0 = ExpireHunt id /\ status (hunt_at Scenario.claimed id) = Active /\
     expiresAt (hunt_at Scenario.claimed id) <= block_timestamp Scenario.claim_env /\
     Scenario.finder = hider (hunt_at Scenario.claimed id) /\
     getPotBalance Scenario.claimed id = Ok 500000 /\ 0 < 500000).
Proof.
  apply (@transfers_only_to_claimer_or_hider MockVerifier Scenario.claimed
           Scenario.claim_env (Withdraw 0) Scenario.withdrawn_once
           [Transfer Scenario.finder 500000;
            Emit (Withdrawal 0 Scenario.finder 500000)]).
  - vm_compute. reflexivity.
  - simpl. left. reflexivity.
Defined.

Lemma one_event_per_call_witness :
  exists ev, event_huntId ev = 0 /\
    (exists to amount, [Transfer Scenario.finder 500000;
                        Emit (Withdrawal 0 Scenario.finder 500000)]
                       = [Transfer to amount; Emit ev]).
Proof.
  destruct (@one_event_per_call MockVerifier Scenario.claimed Scenario.claim_env
              (Withdraw 0) Scenario.withdrawn_once
              [Transfer Scenario.finder 500000;
               Emit (Withdrawal 0 Scenario.finder 500000)])
    as (ev & Hid & [Hone|(to & amount & Htwo & _)]).
  - vm_compute. reflexivity.
  - discriminate Hone.
  - exists ev. split; [exact Hid|]. exists to, amount. exact Htwo.
Defined.

Section Lifecycle.
Context {verifier : IVerifier}.

(** One transaction on a registered hunt: the registration data stay, and
    the status stays or leaves Active. *)
Lemma registered_transact s id tx :
  id < huntCounter s ->
  id < huntCounter (transact s tx) /\
  with_status (hunt_at (transact s tx) id) Active = with_status (hunt_at s id) Active /\
  (status (hunt_at (transact s tx) id) = status (hunt_at s id) \/
   status (hunt_at s id) = Active).
Proof.
  intros Hreg. pose proof (huntCounter_transact s tx) as Hmono.
  split; [lia|].
  destruct (transact_cases s tx) as [(s' & acts & He & ->)|(err & _ & ->)];
    [|by split; [|left]].
  apply exec_cases in He. destruct tx.2.
  - apply createHunt_Ok in He as (_ & _ & _ & _ & _ & _ & _ & _ & -> & _).
    storage. rewrite decide_False by lia. by split; [|left].
  - apply purchaseHint_Ok in He as (_ & _ & _ & _ & _ & -> & _).
    storage. by split; [|left].
  - apply claimTreasure_Ok in He as (Hs & _ & _ & _ & _ & -> & _).
    storage. case_decide; [subst|by split; [|left]]. by split; [|right].
  - apply withdraw_Ok in He as (? & ? & _ & _ & _ & _ & _ & _ & _ & -> & _).
    storage. by split; [|left].
  - apply expireHunt_Ok in He as (? & Hs & _ & _ & -> & _).
    storage. case_decide; [subst|by split; [|left]]. by split; [|right].
Qed.

(** X9.  What a registration stores is never rewritten: along every run the
    hider, location commitment, initial prize, creation time, claim window
    and hint price of a registered hunt stay as they are, and its status
    either stays or has left Active. *)
Theorem registration_data_immutable s id txs :
  id < huntCounter s ->
  let h := hunt_at s id in
  let h' := hunt_at (run s txs) id in
  hider h' = hider h /\
  locationCommitment h' = locationCommitment h /\
  initialPrize h' = initialPrize h /\
  createdAt h' = createdAt h /\
  claimableAfter h' = claimableAfter h /\
  expiresAt h' = expiresAt h /\
  hintPrice h' = hintPrice h /\
  (status h' = status h \/ status h = Active).
Proof.
  intros Hreg h h'.
  enough (id < huntCounter (run s txs) /\
          with_status h' Active = with_status h Active /\
          (status h' = status h \/ status h = Active)) as (_ & Heq & Hst).
  { injection Heq as -> -> -> -> -> -> ->. by repeat split. }
  subst h h'. apply run_ind; [|by split; [|split; [|left]]].
  intros s1 tx (Hreg1 & Heq1 & Hst1).
  destruct (registered_transact s1 id tx Hreg1) as (Hreg2 & Heq2 & Hst2).
  split; [done|]. split; [congruence|].
  destruct Hst1 as [Hst1|?]; [|by right].
  destruct Hst2 as [Hst2|Hst2]; [left|right]; congruence.
Qed.

(** One transaction on a Claimed hunt leaves its record, its contributions
    and its running total alone, and never lowers [totalWithdrawn]. *)
Lemma claimed_frozen_transact s id tx :
  ledger_inv s -> status (hunt_at s id) = Claimed ->
  hunt_at (transact s tx) id = hunt_at s id /\
  contributions_of (transact s tx) id = contributions_of s id /\
  purchased_of (transact s tx) id = purchased_of s id /\
  total_at (transact s tx) id = total_at s id /\
  totalWithdrawn (claim_at s id) <= totalWithdrawn (claim_at (transact s tx) id).
Proof.
  intros Hinv Hcl.
  destruct (transact_cases s tx) as [(s' & acts & He & ->)|(err & _ & ->)];
    [|by repeat split].
  apply exec_cases in He. destruct tx.2.
  - apply createHunt_Ok in He as (_ & _ & _ & _ & _ & _ & _ & _ & -> & _).
    storage. case_decide; [subst|by repeat split].
    destruct (inv_fresh s Hinv (huntCounter s)) as [E|E]; [lia| |];
      rewrite E in Hcl; discriminate.
  - apply purchaseHint_Ok in He as (Hs & _ & _ & _ & _ & -> & _).
    storage. assert (_huntId <> id) by congruence.
    rewrite !decide_False by done. by repeat split.
  - apply claimTreasure_Ok in He as (Hs & _ & _ & _ & _ & -> & _).
    storage. assert (_huntId <> id) by congruence.
    rewrite !decide_False by done. by repeat split.
  - apply withdraw_Ok in He as (? & ? & _ & _ & _ & _ & _ & _ & _ & -> & _).
    storage. case_decide; [subst; simpl|]; repeat split; try done; lia.
  - apply expireHunt_Ok in He as (? & Hs & _ & _ & -> & _).
    storage. assert (_huntId <> id) by congruence.
    rewrite !decide_False by done. by repeat split.
Qed.

(** X10.  Once a hunt is Claimed its funding is closed: along every run its
    record, contributions and running total stay as they are and
    [totalWithdrawn] only grows, so the pot never grows again; a hint
    purchase reverts with "Hunt not active" and the refund of [expireHunt]
    with "Not active". *)
Theorem claimed_hunt_funding_closed s id txs :
  reachable s -> status (hunt_at s id) = Claimed ->
  let s' := run s txs in
  hunt_at s' id = hunt_at s id /\
  contributions_of s' id = contributions_of s id /\
  total_at s' id = total_at s id /\
  totalWithdrawn (claim_at s id) <= totalWithdrawn (claim_at s' id) /\
  (forall B B', getPotBalance s id = Ok B -> getPotBalance s' id = Ok B' -> B' <= B) /\
  (forall e pay, purchaseHint s' e pay id = Err (Revert "Hunt not active")) /\
  (forall e, expireHunt s' e id = Err (Revert "Not active")).
Proof.
  intros Hreach Hcl s'. pose proof (ledger_inv_reachable s Hreach) as Hinv.
  assert (Hrun : ledger_inv s' /\ hunt_at s' id = hunt_at s id /\
                 contributions_of s' id = contributions_of s id /\
                 total_at s' id = total_at s id /\
                 totalWithdrawn (claim_at s id) <= totalWithdrawn (claim_at s' id)).
  { subst s'. apply run_ind; [|split; [done|repeat split; first [done|lia]]].
    intros s1 tx (Hinv1 & Hh1 & Hc1 & Ht1 & Hw1).
    assert (Hcl1 : status (hunt_at s1 id) = Claimed) by congruence.
    destruct (claimed_frozen_transact s1 id tx Hinv1 Hcl1) as (Hh2 & Hc2 & _ & Ht2 & Hw2).
    split; [by apply ledger_inv_transact|].
    repeat split; [congruence|congruence|congruence|lia]. }
  destruct Hrun as (_ & Hh & Hc & Ht & Hw).
  repeat split; try done.
  - intros B B' HB HB'.
    apply getPotBalance_Ok in HB as [_ ->]. apply getPotBalance_Ok in HB' as [_ ->].
    rewrite Hh, Ht. unfold pot_of.
    destruct (N.ltb_spec (totalWithdrawn (claim_at s id))
                (initialPrize (hunt_at s id) + total_at s id));
      destruct (N.ltb_spec (totalWithdrawn (claim_at s' id))
                  (initialPrize (hunt_at s id) + total_at s id)); lia.
  - intros e pay. unfold purchaseHint. by rewrite Hh, Hcl.
  - intros e. unfold expireHunt. by rewrite Hh, Hcl.
Qed.

(** One transaction on a registered Expired hunt changes nothing of it. *)
Lemma expired_frozen_transact s id tx :
  ledger_inv s -> id < huntCounter s -> status (hunt_at s id) = Expired ->
  same_hunt_state s (transact s tx) id.
Proof.
  intros Hinv Hreg Hexp. unfold same_hunt_state.
  destruct (transact_cases s tx) as [(s' & acts & He & ->)|(err & _ & ->)];
    [|by repeat split].
  assert (Hnc : status (hunt_at s id) <> Claimed) by congruence.
  apply exec_cases in He. destruct tx.2.
  - apply createHunt_Ok in He as (_ & _ & _ & _ & _ & _ & _ & _ & -> & _).
    storage. rewrite decide_False by lia. by repeat split.
  - apply purchaseHint_Ok in He as (Hs & _ & _ & _ & _ & -> & _).
    storage. assert (_huntId <> id) by congruence.
    rewrite !decide_False by done. by repeat split.
  - apply claimTreasure_Ok in He as (Hs & _ & _ & _ & _ & -> & _).
    storage. assert (_huntId <> id) by congruence.
    rewrite !decide_False by done. by repeat split.
  - apply withdraw_Ok in He as (? & ? & Hs & _ & _ & _ & _ & _ & _ & -> & _).
    storage. assert (_huntId <> id) by congruence.
    rewrite !decide_False by done. by repeat split.
  - apply expireHunt_Ok in He as (? & Hs & _ & _ & -> & _).
    storage. assert (_huntId <> id) by congruence.
    rewrite !decide_False by done. by repeat split.
Qed.

(** X11.  A registered hunt that has expired is closed for good: along
    every run nothing stored under its id changes, its claim record stays
    empty, and [purchaseHint], [claimTreasure], [withdraw] and a second
    [expireHunt] on it all revert. *)
Theorem expired_hunt_closed s id txs :
  reachable s -> id < huntCounter s -> status (hunt_at s id) = Expired ->
  let s' := run s txs in
  same_hunt_state s s' id /\
  claim_at s' id = claim0 /\
  (forall e pay, purchaseHint s' e pay id = Err (Revert "Hunt not active")) /\
  (forall e pf cc, claimTreasure s' e id pf cc = Err (Revert "Hunt not active")) /\
  (forall e, withdraw s' e id = Err (Revert "Not claimed")) /\
  (forall e, expireHunt s' e id = Err (Revert "Not active")).
Proof.
  intros Hreach Hreg Hexp s'. pose proof (ledger_inv_reachable s Hreach) as Hinv.
  assert (Hrun : ledger_inv s' /\ id < huntCounter s' /\ same_hunt_state s s' id).
  { subst s'. apply run_ind; [|split; [done|split; [done|by repeat split]]].
    intros s1 tx (Hinv1 & Hreg1 & Hsame1).
    assert (Hexp1 : status (hunt_at s1 id) = Expired).
    { destruct Hsame1 as (-> & _). done. }
    pose proof (expired_frozen_transact s1 id tx Hinv1 Hreg1 Hexp1) as Hsame2.
    pose proof (huntCounter_transact s1 tx).
    split; [by apply ledger_inv_transact|]. split; [lia|].
    unfold same_hunt_state in *.
    destruct Hsame1 as (? & ? & ? & ? & ?), Hsame2 as (? & ? & ? & ? & ?).
    repeat split; congruence. }
  destruct Hrun as (_ & _ & Hsame).
  pose proof Hsame as (Hh & Hc & _).
  assert (Hst : status (hunt_at s' id) = Expired) by (by rewrite Hh).
  repeat split; try apply Hsame.
  - rewrite Hc. apply (inv_claim s Hinv). congruence.
  - intros e pay. unfold purchaseHint. by rewrite Hst.
  - intros e pf cc. unfold claimTreasure. by rewrite Hst.
  - intros e. unfold withdraw. by rewrite Hst.
  - intros e. unfold expireHunt. by rewrite Hst.
Qed.

End Lifecycle.

Lemma registration_data_immutable_witness :
  hider (hunt_at Scenario.withdrawn_once 0) = hider (hunt_at Scenario.registered 0) /\
  expiresAt (hunt_at Scenario.withdrawn_once 0)
  = expiresAt (hunt_at Scenario.registered 0).
Proof.
  assert (Hreg : 0 < huntCounter Scenario.registered).
  { apply N.ltb_lt. vm_compute. reflexivity. }
  destruct (@registration_data_immutable MockVerifier Scenario.registered 0
              [(Scenario.claim_env, ClaimTreasure 0 Scenario.proof0 5);
               (Scenario.claim_env, Withdraw 0)] Hreg)
    as (Hh & _ & _ & _ & _ & He & _).
  split; [exact Hh|exact He].
Defined.

Lemma claimed_hunt_funding_closed_witness :
  purchaseHint Scenario.withdrawn_once (mkEnv Scenario.seeker (Scenario.t0 + 90000))
    1000 0 = Err (Revert "Hunt not active").
Proof.
  assert (Hreach : @reachable MockVerifier Scenario.claimed).
  { exists [(mkEnv Scenario.creator Scenario.t0, Scenario.registration);
            (Scenario.claim_env, ClaimTreasure 0 Scenario.proof0 5)].
    reflexivity. }
  assert (Hcl : status (hunt_at Scenario.claimed 0) = Claimed).
  { vm_compute. reflexivity. }
  destruct (@claimed_hunt_funding_closed MockVerifier Scenario.claimed 0
              [(Scenario.claim_env, Withdraw 0)] Hreach Hcl)
    as (_ & _ & _ & _ & _ & Hbuy & _).
  exact (Hbuy (mkEnv Scenario.seeker (Scenario.t0 + 90000)) 1000).
Defined.

Lemma expired_hunt_closed_witness :
  @claimTreasure MockVerifier Scenario.expired Scenario.expiry_env 0 Scenario.proof0 5
  = Err (Revert "Hunt not active").
Proof.
  assert (Hreach : @reachable MockVerifier Scenario.expired).
  { exists [(mkEnv Scenario.creator Scenario.t0, Scenario.registration);
            (Scenario.expiry_env, ExpireHunt 0)].
    reflexivity. }
  assert (Hreg : 0 < huntCounter Scenario.expired).
  { apply N.ltb_lt. vm_compute. reflexivity. }
  assert (Hexp : status (hunt_at Scenario.expired 0) = Expired).
  { vm_compute. reflexivity. }
  destruct (@expired_hunt_closed MockVerifier Scenario.expired 0 [] Hreach Hreg Hexp)
    as (_ & _ & _ & Hclaim & _).
  exact (Hclaim Scenario.expiry_env Scenario.proof0 5).
Defined.

Section Unregistered.
Context {verifier : IVerifier}.

(** X12.  An id that no registration has handed out cannot be claimed or
    withdrawn from: in every reachable state [claimTreasure] and [withdraw]
    on it revert, whoever calls, whenever, with whatever proof. *)
Theorem unregistered_id_rejects_claim_and_withdraw s id :
  reachable s -> huntCounter s <= id ->
  (forall e pf cc, is_ok (claimTreasure s e id pf cc) = false) /\
  (forall e, withdraw s e id = Err (Revert "Not claimed")) /\
  claim_at s id = claim0.
Proof.
  intros Hreach Hid. pose proof (ledger_inv_reachable s Hreach) as Hinv.
  assert (Hexp : expiresAt (hunt_at s id) = 0 /\ status (hunt_at s id) <> Claimed).
  { destruct (inv_fresh s Hinv id Hid) as [E|E]; by rewrite E. }
  destruct Hexp as [Hexp Hnc]. split; [|split].
  - intros e pf cc. apply claimTreasure_after_expiry. lia.
  - intros e. unfold withdraw.
    destruct (status (hunt_at s id)); done.
  - by apply (inv_claim s Hinv).
Qed.



End Unregistered.

Lemma unregistered_id_rejects_claim_and_withdraw_witness :
  withdraw Scenario.registered Scenario.claim_env 7 = Err (Revert "Not claimed").
Proof.
  assert (Hreach : @reachable MockVerifier Scenario.registered).
  { exists [(mkEnv Scenario.creator Scenario.t0, Scenario.registration)]. reflexivity. }
  assert (Hid : huntCounter Scenario.registered <= 7).
  { apply N.leb_le. vm_compute. reflexivity. }
  exact (proj1 (proj2 (@unregistered_id_rejects_claim_and_withdraw MockVerifier
                         Scenario.registered 7 Hreach Hid)) Scenario.claim_env).
Defined.



Section Draining.
Context {verifier : IVerifier}.



End Draining.


(** * Further properties of the distance check *)

Module DistanceFacts.
Import Circuit CircuitFacts.
Local Open Scope Z_scope.

(** The signal [withinRange] on coordinates in range and a 64-bit radius. *)
Lemma DistanceCheck_value (gpsLat gpsLon targetLat targetLon radiusSquared : Z) :
  coordinate gpsLat -> coordinate gpsLon ->
  coordinate targetLat -> coordinate targetLon ->
  0 <= radiusSquared < 2 ^ 64 ->
  DistanceCheck (F gpsLat) (F gpsLon) (F targetLat) (F targetLon) (F radiusSquared)
  = Some (if Gps.distanceSquared gpsLat gpsLon targetLat targetLon <? radiusSquared
          then 1 else 0).
Proof.
  intros H1 H2 H3 H4 Hr. unfold DistanceCheck.
  destruct (DistanceCheck_signals gpsLat gpsLon targetLat targetLon H1 H2 H3 H4)
    as [-> Hd].
  pose proof p_large.
  rewrite (F_small radiusSquared) by lia.
  by rewrite LessThan_64 by lia.
Qed.

(** X16.  The check the scripts run before building a proof
    ([isWithinRadius], with [<=]) and the circuit (with [LessThan]) agree
    except on the circle itself: a position passes the script exactly when
    the circuit accepts it or its squared distance equals the squared
    radius. *)
Theorem isWithinRadius_vs_circuit (gpsLat gpsLon targetLat targetLon : Z) :
  coordinate gpsLat -> coordinate gpsLon ->
  coordinate targetLat -> coordinate targetLon ->
  Gps.isWithinRadius gpsLat gpsLon targetLat targetLon = true <->
  accepts gpsLat gpsLon targetLat targetLon Gps.RADIUS_SQUARED = true \/
  Gps.distanceSquared gpsLat gpsLon targetLat targetLon = Gps.RADIUS_SQUARED.
Proof.
  intros H1 H2 H3 H4.
  assert (Hr : 0 <= Gps.RADIUS_SQUARED < 2 ^ 64) by (by vm_compute).
  rewrite (accepts_strict _ _ _ _ _ H1 H2 H3 H4 Hr).
  unfold Gps.isWithinRadius. rewrite Z.leb_le. lia.
Qed.

(** X17.  [TreasureClaim] has a witness exactly for positions strictly
    inside the radius, and its public output is then the hash of the
    location commitment, the secret hash and the claimer address: the
    finder's own coordinates do not appear in it. *)
Theorem TreasureClaim_public_output
    (Poseidon1 : Z -> Z) (Poseidon3 : Z -> Z -> Z -> Z)
    (secret gpsLat gpsLon targetLat targetLon radiusSquared claimerAddress cc : Z) :
  coordinate gpsLat -> coordinate gpsLon ->
  coordinate targetLat -> coordinate targetLon ->
  0 <= radiusSquared < 2 ^ 64 ->
  TreasureClaim Poseidon1 Poseidon3 secret (F gpsLat) (F gpsLon) (F targetLat)
    (F targetLon) (F radiusSquared) claimerAddress = Some cc <->
  Gps.distanceSquared gpsLat gpsLon targetLat targetLon < radiusSquared /\
  cc = Poseidon3 (Poseidon3 (F targetLat) (F targetLon) (F radiusSquared))
                 (Poseidon1 secret) claimerAddress.
Proof.
  intros H1 H2 H3 H4 Hr. unfold TreasureClaim.
  rewrite (DistanceCheck_value _ _ _ _ _ H1 H2 H3 H4 Hr).
  cbn [mbind option_bind].
  destruct (Z.ltb_spec (Gps.distanceSquared gpsLat gpsLon targetLat targetLon)
              radiusSquared) as [Hlt|Hge]; simpl.
  - split.
    + intros [= <-]. done.
    + intros [_ ->]. done.
  - split; [done|]. intros [? _]. lia.
Qed.

(** X18.  [isWithinRadius] does not care which point is the finder and
    which the target, and a position it accepts lies in the square of
    side [2 * RADIUS_SCALED] around the target. *)
Theorem isWithinRadius_symmetric_box (lat1 lon1 lat2 lon2 : Z) :
  Gps.isWithinRadius lat1 lon1 lat2 lon2 = Gps.isWithinRadius lat2 lon2 lat1 lon1 /\
  (Gps.isWithinRadius lat1 lon1 lat2 lon2 = true ->
   Z.abs (lat1 - lat2) <= Gps.RADIUS_SCALED /\
   Z.abs (lon1 - lon2) <= Gps.RADIUS_SCALED).
Proof.
  unfold Gps.isWithinRadius, Gps.distanceSquared, Gps.RADIUS_SQUARED, Gps.RADIUS_SCALED.
  split.
  - f_equal. ring.
  - rewrite Z.leb_le. intros Hd.
    pose proof (Z.square_nonneg (lat1 - lat2)).
    pose proof (Z.square_nonneg (lon1 - lon2)).
    split; apply Z.abs_le; split; nia.
Qed.

End DistanceFacts.

Lemma isWithinRadius_vs_circuit_witness :
  Gps.isWithinRadius 37774960 (-122419320) 37774900 (-122419400) = true.
Proof.
  apply DistanceFacts.isWithinRadius_vs_circuit.
  - unfold Circuit.coordinate. lia.
  - unfold Circuit.coordinate. lia.
  - unfold Circuit.coordinate. lia.
  - unfold Circuit.coordinate. lia.
  - right. reflexivity.
Defined.

Lemma TreasureClaim_public_output_witness :
  Circuit.TreasureClaim (fun x => x) (fun x y z => (x + y + z)%Z) 7
    (Circuit.F 37774950) (Circuit.F (-122419350)) (Circuit.F 37774900)
    (Circuit.F (-122419400)) (Circuit.F 10000) 9
  = Some ((Circuit.F 37774900 + Circuit.F (-122419400) + Circuit.F 10000) + 7 + 9)%Z.
Proof.
  apply DistanceFacts.TreasureClaim_public_output.
  - unfold Circuit.coordinate. lia.
  - unfold Circuit.coordinate. lia.
  - unfold Circuit.coordinate. lia.
  - unfold Circuit.coordinate. lia.
  - split; [lia|reflexivity].
  - split; reflexivity.
Defined.

(** * Addresses as integers *)

Module HashFacts.
Import Hash.
Local Open Scope string_scope.


Lemma append_cons (c : ascii) (s1 s2 : string) :
  String c s1 ++ s2 = String c (s1 ++ s2).
Proof. reflexivity. Qed.

Lemma append_assoc (s1 s2 s3 : string) : (s1 ++ s2) ++ s3 = s1 ++ (s2 ++ s3).
Proof. induction s1 as [|c s1 IH]; [done|by rewrite !append_cons, IH]. Qed.

Lemma length_append (s1 s2 : string) :
  String.length (s1 ++ s2) = (String.length s1 + String.length s2)%nat.
Proof.
  induction s1 as [|c s1 IH]; [done|].
  rewrite append_cons. simpl. by rewrite IH.
Qed.

Lemma length_repeat_char (c : ascii) (n : nat) : String.length (repeat_char c n) = n.
Proof. induction n as [|n IH]; simpl; [done|by rewrite IH]. Qed.

Lemma length_padStart (k : nat) (c : ascii) (s : string) :
  String.length (padStart k c s) = Nat.max k (String.length s).
Proof. unfold padStart. rewrite length_append, length_repeat_char. lia. Qed.

(** *** Digits *)

Lemma digit_in_hexDigit (d : N) : (d < 16)%N -> digit_in 16 (hexDigit d) = Some d.
Proof.
  intros Hd. rewrite <- (N2Nat.id d).
  assert (Hm : (N.to_nat d < 16)%nat) by lia.
  revert Hm. generalize (N.to_nat d). intros m Hm.
  do 16 (destruct m as [|m]; [reflexivity|]). lia.
Qed.

Lemma digit_not_space (c : ascii) (d : N) :
  digit_in 16 c = Some d -> is_space c = false.
Proof.
  destruct c as [[] [] [] [] [] [] [] []]; vm_compute; congruence.
Qed.

Lemma digit_in_bound (c : ascii) (d : N) : digit_in 16 c = Some d -> (d < 16)%N.
Proof.
  unfold digit_in. destruct (HexString.ascii_to_digit c) as [d'|]; [|done].
  destruct (N.ltb_spec d' 16); [|done]. by intros [= <-].
Qed.

(** *** Parsing *)

Lemma parseDigits_acc (b : N) (s : string) (a : N) :
  parseDigits b a s
  = option_map (fun v => (a * b ^ N.of_nat (String.length s) + v)%N)
               (parseDigits b 0 s).
Proof.
  revert a. induction s as [|c s IH]; intros a.
  - simpl. f_equal. lia.
  - cbn [parseDigits String.length]. destruct (digit_in b c) as [d|]; [|done].
    rewrite (IH (a * b + d)%N), (IH (0 * b + d)%N).
    destruct (parseDigits b 0 s) as [v|]; [|done]. simpl. f_equal.
    rewrite Nat2N.inj_succ, N.pow_succ_r'. lia.
Qed.

Lemma parseDigits_app (b a : N) (s1 s2 : string) :
  parseDigits b a (s1 ++ s2)
  = match parseDigits b a s1 with
    | Some a' => parseDigits b a' s2
    | None => None
    end.
Proof.
  revert a. induction s1 as [|c s1 IH]; intros a; simpl; [done|].
  destruct (digit_in b c); [apply IH|done].
Qed.

Lemma parseDigits_zeros (k : nat) (s : string) :
  parseDigits 16 0 (repeat_char "0" k ++ s) = parseDigits 16 0 s.
Proof. induction k as [|k IH]; simpl; [done|apply IH]. Qed.

Lemma parseDigits_bound (s : string) (v : N) :
  parseDigits 16 0 s = Some v -> (v < 16 ^ N.of_nat (String.length s))%N.
Proof.
  revert v. induction s as [|c s IH]; intros v.
  - intros [= <-]. simpl. lia.
  - cbn [parseDigits String.length].
    destruct (digit_in 16 c) as [d|] eqn:Hc; [|done].
    rewrite parseDigits_acc.
    destruct (parseDigits 16 0 s) as [w|]; [|done]. intros [= <-].
    specialize (IH w eq_refl). apply digit_in_bound in Hc.
    rewrite Nat2N.inj_succ, N.pow_succ_r'.
    generalize dependent (16 ^ N.of_nat (String.length s))%N. intros P HP. nia.
Qed.

(** *** Printing *)

Lemma hexDigits_app (fuel : nat) (n : N) (acc : string) :
  hexDigits fuel n acc = hexDigits fuel n "" ++ acc.
Proof.
  revert n acc. induction fuel as [|fuel IH]; intros n acc; simpl; [done|].
  destruct (n <? 16)%N; [done|].
  rewrite (IH _ (String _ acc)), (IH _ (String _ "")), append_assoc. done.
Qed.

Lemma pow16_log2 (n : N) : (n < 16 ^ N.of_nat (S (N.to_nat (N.log2 n))))%N.
Proof.
  rewrite Nat2N.inj_succ, N2Nat.id.
  assert (n < 2 ^ N.succ (N.log2 n))%N.
  { destruct n as [|q]; [done|]. apply N.log2_spec. lia. }
  assert (2 ^ N.succ (N.log2 n) <= 16 ^ N.succ (N.log2 n))%N
    by (apply N.pow_le_mono_l; lia).
  lia.
Qed.

Lemma parse_hexDigits (fuel : nat) (n : N) :
  (n < 16 ^ N.of_nat fuel)%N -> parseDigits 16 0 (hexDigits fuel n "") = Some n.
Proof.
  revert n. induction fuel as [|fuel IH]; intros n Hn.
  - simpl in *. f_equal. lia.
  - cbn [hexDigits]. destruct (N.ltb_spec n 16) as [Hlt|Hge].
    + cbn [parseDigits]. rewrite digit_in_hexDigit by done. simpl. f_equal.
    + rewrite hexDigits_app, parseDigits_app.
      rewrite Nat2N.inj_succ, N.pow_succ_r' in Hn.
      rewrite IH by (apply N.Div0.div_lt_upper_bound; lia).
      cbn [parseDigits].
      rewrite digit_in_hexDigit by (apply N.mod_lt; lia).
      f_equal. pose proof (N.div_mod n 16). lia.
Qed.

Lemma all_hex_app (s1 s2 : string) :
  all_hex (s1 ++ s2) = all_hex s1 && all_hex s2.
Proof.
  induction s1 as [|c s1 IH]; simpl; [done|].
  destruct (digit_in 16 c); [apply IH|done].
Qed.

Lemma all_hex_hexDigits (fuel : nat) (n : N) (acc : string) :
  all_hex acc = true -> all_hex (hexDigits fuel n acc) = true.
Proof.
  revert n acc. induction fuel as [|fuel IH]; intros n acc Hacc; simpl; [done|].
  destruct (N.ltb_spec n 16).
  - simpl. by rewrite digit_in_hexDigit.
  - apply IH. simpl. rewrite digit_in_hexDigit; [done|]. apply N.mod_lt. lia.
Qed.

Lemma all_hex_repeat_zero (k : nat) : all_hex (repeat_char "0" k) = true.
Proof. induction k; simpl; done. Qed.

Lemma hexDigits_nonempty (fuel : nat) (n : N) (acc : string) :
  hexDigits (S fuel) n acc <> "".
Proof.
  rewrite hexDigits_app. simpl. destruct (n <? 16)%N; [done|].
  rewrite hexDigits_app. destruct (hexDigits fuel (n / 16) ""); done.
Qed.

(** *** Trimming *)

Lemma trimEnd_cons (c : ascii) (s : string) :
  is_space c = false -> trimEnd (String c s) = String c (trimEnd s).
Proof. intros Hc. simpl. rewrite Hc. by destruct (trimEnd s). Qed.

Lemma trimEnd_all_hex (s : string) : all_hex s = true -> trimEnd s = s.
Proof.
  induction s as [|c s IH]; [done|]. cbn [all_hex].
  destruct (digit_in 16 c) as [d|] eqn:Hc; [|done]. intros Hs.
  rewrite trimEnd_cons by (by eapply digit_not_space). by rewrite IH.
Qed.

Lemma prefix_0x (s : string) : String.prefix "0x" ("0x" ++ s) = true.
Proof. by destruct s. Qed.

(** [BigInt] of a string that starts with [0x] and has no white space in
    front reads the rest, trimmed at the end, as a hexadecimal numeral. *)
Lemma BigInt_of_0x (s : string) :
  BigInt_of_string ("0x" ++ s) = option_map Z.of_N (parseNumeral 16 (trimEnd s)).
Proof.
  unfold BigInt_of_string.
  change (trimStart ("0x" ++ s)) with ("0x" ++ s).
  change ("0x" ++ s) with (String "0" (String "x" s)).
  by rewrite !trimEnd_cons by done.
Qed.

Lemma parseNumeral_nonempty (b : N) (s : string) :
  s <> "" -> parseNumeral b s = parseDigits b 0 s.
Proof. by destruct s. Qed.

Lemma padStart_nonempty (c : ascii) (s : string) : padStart 40 c s <> "".
Proof.
  intros H. pose proof (length_padStart 40 c s) as Hl. rewrite H in Hl.
  simpl in Hl. lia.
Qed.

Lemma toString16_N_hex (n : N) : all_hex (toString16_N n) = true.
Proof. by apply all_hex_hexDigits. Qed.

Lemma parse_toString16_N (n : N) : parseDigits 16 0 (toString16_N n) = Some n.
Proof. apply parse_hexDigits, pow16_log2. Qed.

(** The number of digits [toString(16)] prints. *)
Lemma length_hexDigits (fuel : nat) (n : N) (acc : string) (k : nat) :
  (n < 16 ^ N.of_nat fuel)%N -> (0 < n)%N ->
  (String.length (hexDigits fuel n acc) <= k + String.length acc)%nat <->
  (n < 16 ^ N.of_nat k)%N.
Proof.
  revert n acc k. induction fuel as [|fuel IH]; intros n acc k Hn Hpos.
  - simpl in Hn. lia.
  - cbn [hexDigits]. rewrite Nat2N.inj_succ, N.pow_succ_r' in Hn.
    destruct (N.ltb_spec n 16) as [Hlt|Hge].
    + cbn [String.length]. destruct k as [|k].
      * simpl. lia.
      * rewrite Nat2N.inj_succ, N.pow_succ_r'.
        assert (0 < 16 ^ N.of_nat k)%N by (apply N.neq_0_lt_0, N.pow_nonzero; lia).
        lia.
    + assert (Hq : (n / 16 < 16 ^ N.of_nat fuel)%N)
        by (apply N.Div0.div_lt_upper_bound; lia).
      assert (Hq0 : (0 < n / 16)%N) by (apply N.div_str_pos; lia).
      destruct k as [|k].
      * pose proof (IH (n / 16)%N (String (hexDigit (n mod 16)) acc) O Hq Hq0) as H0.
        cbn [String.length] in H0. simpl (16 ^ N.of_nat 0)%N in *. lia.
      * pose proof (IH (n / 16)%N (String (hexDigit (n mod 16)) acc) k Hq Hq0) as Hk.
        cbn [String.length] in Hk.
        rewrite Nat2N.inj_succ, N.pow_succ_r'.
        pose proof (N.Div0.div_mod n 16) as Hdm.
        assert (Hr : (n mod 16 < 16)%N) by (apply N.mod_lt; lia).
        revert Hk Hdm Hr. generalize (n / 16)%N (n mod 16)%N (16 ^ N.of_nat k)%N.
        intros q r P Hk Hdm Hr.
        assert (q < P <-> n < 16 * P)%N by lia.
        lia.
Qed.

Lemma length_toString16_N (n : N) (k : nat) :
  (0 < k)%nat ->
  (String.length (toString16_N n) <= k)%nat <-> (n < 16 ^ N.of_nat k)%N.
Proof.
  intros Hk. destruct (N.eq_dec n 0) as [->|Hn].
  - simpl. assert (0 < 16 ^ N.of_nat k)%N by (apply N.neq_0_lt_0, N.pow_nonzero; lia).
    lia.
  - unfold toString16_N.
    rewrite <- (length_hexDigits _ n "" k (pow16_log2 n)) by lia.
    simpl. lia.
Qed.

(** X19.  Reading back the address [bigIntToAddress] prints gives the
    value again, for every value that is not negative. *)
Theorem addressToBigInt_bigIntToAddress (value : Z) :
  (0 <= value)%Z -> addressToBigInt (bigIntToAddress value) = Some value.
Proof.
  intros Hv. unfold addressToBigInt, bigIntToAddress.
  rewrite prefix_0x.
  assert (Hs : toString16 value = toString16_N (Z.to_N value)) by (by destruct value).
  rewrite Hs, BigInt_of_0x. unfold padStart.
  rewrite trimEnd_all_hex
    by (by rewrite all_hex_app, all_hex_repeat_zero, toString16_N_hex).
  rewrite parseNumeral_nonempty by apply padStart_nonempty.
  rewrite parseDigits_zeros, parse_toString16_N. simpl. f_equal. lia.
Qed.

(** X20.  [bigIntToAddress] never shortens: what it prints starts with
    [0x] and has 42 characters exactly when the value is below [2^160]; a
    larger value gives a longer string, not an error. *)
Theorem bigIntToAddress_shape (value : Z) :
  (0 <= value)%Z ->
  String.prefix "0x" (bigIntToAddress value) = true /\
  (42 <= String.length (bigIntToAddress value))%nat /\
  (String.length (bigIntToAddress value) = 42%nat <-> (value < 2 ^ 160)%Z).
Proof.
  intros Hv. unfold bigIntToAddress.
  assert (Hs : toString16 value = toString16_N (Z.to_N value)) by (by destruct value).
  rewrite Hs. split; [apply prefix_0x|].
  rewrite length_append, length_padStart. cbn [String.length].
  pose proof (length_toString16_N (Z.to_N value) 40 ltac:(lia)) as Hl.
  change (16 ^ N.of_nat 40)%N with (Z.to_N (2 ^ 160)) in Hl.
  assert ((Z.to_N value < Z.to_N (2 ^ 160))%N <-> (value < 2 ^ 160)%Z).
  { rewrite <- Z2N.inj_lt; [done|lia|done]. }
  split; [lia|]. lia.
Qed.


(** X22.  [startsWith('0x')] looks at the lower-case prefix only: an
    address spelt with [0X] gets a second prefix and is rejected,
    whatever follows. *)
Theorem addressToBigInt_upper_prefix (rest : string) :
  addressToBigInt ("0X" ++ rest) = None.
Proof.
  unfold addressToBigInt.
  change (String.prefix "0x" ("0X" ++ rest)) with false. cbv iota.
  rewrite BigInt_of_0x.
  change ("0X" ++ rest) with (String "0" (String "X" rest)).
  rewrite !trimEnd_cons by done. done.
Qed.

(** *** Lower-case numerals *)

Lemma lowerHex_char (c : ascii) (d : N) :
  digit_in 16 c = Some d -> digit_in 16 (hexDigit d) = Some d.
Proof. intros Hc. apply digit_in_hexDigit. by eapply digit_in_bound. Qed.

Lemma length_lowerHex (s : string) : String.length (lowerHex s) = String.length s.
Proof. induction s as [|c s IH]; simpl; [done|by rewrite IH]. Qed.

Lemma parseDigits_lowerHex (s : string) (a : N) :
  parseDigits 16 a (lowerHex s) = parseDigits 16 a s.
Proof.
  revert a. induction s as [|c s IH]; intros a; [done|].
  cbn [lowerHex parseDigits].
  destruct (digit_in 16 c) as [d|] eqn:Hc.
  - by rewrite (lowerHex_char c d Hc).
  - by rewrite Hc.
Qed.

Lemma lowerHex_idemp (s : string) : lowerHex (lowerHex s) = lowerHex s.
Proof.
  induction s as [|c s IH]; [done|]. cbn [lowerHex]. rewrite IH. f_equal.
  destruct (digit_in 16 c) as [d|] eqn:Hc.
  - by rewrite (lowerHex_char c d Hc).
  - by rewrite Hc.
Qed.

Lemma lowerHex_app (s1 s2 : string) :
  lowerHex (s1 ++ s2) = lowerHex s1 ++ lowerHex s2.
Proof.
  induction s1 as [|c s1 IH]; [done|].
  rewrite append_cons. cbn [lowerHex]. by rewrite IH, append_cons.
Qed.

Lemma lowerHex_zeros (k : nat) : lowerHex (repeat_char "0" k) = repeat_char "0" k.
Proof. induction k as [|k IH]; [done|]. simpl repeat_char. cbn [lowerHex]. by rewrite IH. Qed.

Lemma lowerHex_hexDigits (fuel : nat) (n : N) (acc : string) :
  lowerHex acc = acc -> lowerHex (hexDigits fuel n acc) = hexDigits fuel n acc.
Proof.
  revert n acc. induction fuel as [|fuel IH]; intros n acc Hacc; [done|].
  cbn [hexDigits]. destruct (N.ltb_spec n 16).
  - cbn [lowerHex]. by rewrite digit_in_hexDigit, Hacc.
  - apply IH. cbn [lowerHex].
    rewrite digit_in_hexDigit by (apply N.mod_lt; lia). by rewrite Hacc.
Qed.

(** Two lower-case numerals of one length and one value are the same
    string. *)
Lemma lowerHex_unique (s1 s2 : string) (n : N) :
  lowerHex s1 = s1 -> lowerHex s2 = s2 ->
  String.length s1 = String.length s2 ->
  parseDigits 16 0 s1 = Some n -> parseDigits 16 0 s2 = Some n -> s1 = s2.
Proof.
  revert s2 n. induction s1 as [|c1 s1 IH]; intros [|c2 s2] n; try done.
  cbn [lowerHex parseDigits String.length].
  destruct (digit_in 16 c1) as [d1|] eqn:Hc1; [|done].
  destruct (digit_in 16 c2) as [d2|] eqn:Hc2; [|done].
  intros [= E1 L1] [= E2 L2] [= Hlen].
  rewrite (parseDigits_acc 16 s1), (parseDigits_acc 16 s2).
  destruct (parseDigits 16 0 s1) as [v1|] eqn:P1; [|done].
  destruct (parseDigits 16 0 s2) as [v2|] eqn:P2; [|done].
  cbn [option_map]. intros [= <-] [= Hn].
  pose proof (parseDigits_bound s1 v1 P1) as B1.
  pose proof (parseDigits_bound s2 v2 P2) as B2.
  rewrite Hlen in *.
  apply digit_in_bound in Hc1 as D1. apply digit_in_bound in Hc2 as D2.
  assert (Hd : d1 = d2 /\ v1 = v2).
  { revert Hn B1 B2. generalize (16 ^ N.of_nat (String.length s2))%N.
    intros P Hn B1 B2.
    assert (d1 = d2).
    { destruct (N.lt_trichotomy d1 d2) as [Hlt|[Heq|Hgt]]; [|done|].
      - assert ((d1 + 1) * P <= d2 * P)%N by (apply N.mul_le_mono_r; lia). lia.
      - assert ((d2 + 1) * P <= d1 * P)%N by (apply N.mul_le_mono_r; lia). lia. }
    subst d2. split; [done|lia]. }
  destruct Hd as [-> ->].
  rewrite <- E1, <- E2. f_equal. by eapply IH.
Qed.

(** A numeral of hexadecimal digits, printed again to its own length, is
    its lower-case spelling. *)
Lemma padStart_toString16_N (h : string) (n : N) :
  parseDigits 16 0 h = Some n -> h <> "" ->
  padStart (String.length h) "0" (toString16_N n) = lowerHex h.
Proof.
  intros Hn Hne.
  assert (Hk : (0 < String.length h)%nat) by (destruct h; [done|simpl; lia]).
  pose proof (parseDigits_bound h n Hn) as Hb.
  apply (length_toString16_N n (String.length h) Hk) in Hb.
  apply (lowerHex_unique _ _ n).
  - unfold padStart, toString16_N.
    by rewrite lowerHex_app, lowerHex_zeros, lowerHex_hexDigits.
  - apply lowerHex_idemp.
  - rewrite length_padStart, length_lowerHex. lia.
  - unfold padStart. by rewrite parseDigits_zeros, parse_toString16_N.
  - by rewrite parseDigits_lowerHex.
Qed.

Lemma all_hex_parse (s : string) (a : N) :
  all_hex s = true -> exists n, parseDigits 16 a s = Some n.
Proof.
  revert a. induction s as [|c s IH]; intros a; [by eexists|].
  cbn [all_hex parseDigits]. destruct (digit_in 16 c); [apply IH|done].
Qed.

Lemma prefix_cons (a b : ascii) (s1 s2 : string) :
  String.prefix (String a s1) (String b s2)
  = if ascii_dec a b then String.prefix s1 s2 else false.
Proof. reflexivity. Qed.

Lemma all_hex_no_prefix (h : string) :
  all_hex h = true -> String.prefix "0x" h = false.
Proof.
  destruct h as [|c1 [|c2 h]]; [done| |].
  - intros _. rewrite prefix_cons. by destruct (ascii_dec "0" c1).
  - cbn [all_hex]. destruct (digit_in 16 c1); [|done].
    destruct (digit_in 16 c2) eqn:Hc2; [|done]. intros _.
    rewrite !prefix_cons.
    destruct (ascii_dec "0" c1); [|done].
    destruct (ascii_dec "x" c2) as [<-|]; [|done]. done.
Qed.

(** X23.  An address of forty hexadecimal digits, with or without its
    [0x], is read as a value below [2^160], and printing that value gives
    the address in lower case: the case of a checksummed address is lost,
    nothing else. *)
Theorem bigIntToAddress_addressToBigInt (h : string) :
  all_hex h = true -> String.length h = 40%nat ->
  exists value : Z,
    addressToBigInt ("0x" ++ h) = Some value /\
    addressToBigInt h = Some value /\
    (0 <= value < 2 ^ 160)%Z /\
    bigIntToAddress value = "0x" ++ lowerHex h.
Proof.
  intros Hh Hlen.
  destruct (all_hex_parse h 0 Hh) as [n Hn].
  assert (Hne : h <> "") by (by destruct h).
  assert (Hread : addressToBigInt ("0x" ++ h) = Some (Z.of_N n)).
  { unfold addressToBigInt. rewrite prefix_0x, BigInt_of_0x.
    by rewrite trimEnd_all_hex, parseNumeral_nonempty, Hn. }
  exists (Z.of_N n). split; [done|]. split; [|split].
  - unfold addressToBigInt in *. rewrite all_hex_no_prefix by done.
    by rewrite prefix_0x in Hread.
  - pose proof (parseDigits_bound h n Hn) as Hb. rewrite Hlen in Hb.
    change (16 ^ N.of_nat 40)%N with (Z.to_N (2 ^ 160)) in Hb. lia.
  - unfold bigIntToAddress. f_equal.
    assert (Hs : toString16 (Z.of_N n) = toString16_N n).
    { destruct n; [done|]. simpl. done. }
    rewrite Hs, <- Hlen. by apply padStart_toString16_N.
Qed.

(** *** Secrets *)

Lemma parse_Buffer_toString_hex (bytes : list Byte.byte) (a : N) :
  parseDigits 16 a (Buffer_toString_hex bytes)
  = Some (fold_left (fun acc b => acc * 256 + Byte.to_N b)%N bytes a).
Proof.
  revert a. induction bytes as [|b bytes IH]; intros a; [done|].
  cbn [Buffer_toString_hex parseDigits fold_left].
  pose proof (Byte.to_N_bounded b) as Hb.
  assert (Hq : (Byte.to_N b / 16 < 16)%N)
    by (apply N.Div0.div_lt_upper_bound; lia).
  rewrite !digit_in_hexDigit by (done || (apply N.mod_lt; lia)).
  rewrite IH. do 2 f_equal.
  pose proof (N.Div0.div_mod (Byte.to_N b) 16). lia.
Qed.

Lemma all_hex_Buffer_toString_hex (bytes : list Byte.byte) :
  all_hex (Buffer_toString_hex bytes) = true.
Proof.
  induction bytes as [|b bytes IH]; [done|].
  cbn [Buffer_toString_hex all_hex].
  pose proof (Byte.to_N_bounded b) as Hb.
  assert (Hq : (Byte.to_N b / 16 < 16)%N)
    by (apply N.Div0.div_lt_upper_bound; lia).
  by rewrite !digit_in_hexDigit by (done || (apply N.mod_lt; lia)).
Qed.

Lemma length_Buffer_toString_hex (bytes : list Byte.byte) :
  String.length (Buffer_toString_hex bytes) = (2 * List.length bytes)%nat.
Proof. induction bytes as [|b bytes IH]; simpl; [done|]. rewrite IH. lia. Qed.

(** X24.  [generateSecret] never throws on the 32 bytes it draws: the
    secret is the number the bytes spell, most significant byte first, and
    lies below [2^256]. *)
Theorem generateSecret_value (bytes : list Byte.byte) :
  List.length bytes = 32%nat ->
  generateSecret bytes = Some (Z.of_N (bigEndian bytes)) /\
  (0 <= Z.of_N (bigEndian bytes) < 2 ^ 256)%Z.
Proof.
  intros Hlen. unfold generateSecret, bigEndian.
  rewrite BigInt_of_0x, trimEnd_all_hex by apply all_hex_Buffer_toString_hex.
  rewrite parseNumeral_nonempty by (by destruct bytes).
  pose proof (parse_Buffer_toString_hex bytes 0) as Hp. rewrite Hp.
  split; [done|].
  apply parseDigits_bound in Hp.
  rewrite length_Buffer_toString_hex, Hlen in Hp.
  change (16 ^ N.of_nat (2 * 32))%N with (Z.to_N (2 ^ 256)) in Hp. lia.
Qed.

End HashFacts.

Lemma addressToBigInt_bigIntToAddress_witness :
  Hash.addressToBigInt (Hash.bigIntToAddress 255) = Some 255%Z.
Proof. apply HashFacts.addressToBigInt_bigIntToAddress. lia. Defined.

Lemma bigIntToAddress_shape_witness :
  String.prefix "0x" (Hash.bigIntToAddress (2 ^ 160)) = true /\
  (42 <= String.length (Hash.bigIntToAddress (2 ^ 160)))%nat /\
  (String.length (Hash.bigIntToAddress (2 ^ 160)) = 42%nat <->
   (2 ^ 160 < 2 ^ 160)%Z).
Proof. apply HashFacts.bigIntToAddress_shape. lia. Defined.


Lemma bigIntToAddress_addressToBigInt_witness :
  exists value : Z,
    Hash.addressToBigInt "0x52908400098527886E0F7030069857D2E4169EE7" = Some value /\
    Hash.addressToBigInt "52908400098527886E0F7030069857D2E4169EE7" = Some value /\
    (0 <= value < 2 ^ 160)%Z /\
    Hash.bigIntToAddress value = "0x52908400098527886e0f7030069857d2e4169ee7"%string.
Proof.
  apply (HashFacts.bigIntToAddress_addressToBigInt
           "52908400098527886E0F7030069857D2E4169EE7"); reflexivity.
Defined.

Lemma generateSecret_value_witness :
  Hash.generateSecret (repeat Byte.x00 31 ++ [Byte.x2a])
  = Some (Z.of_N (Hash.bigEndian (repeat Byte.x00 31 ++ [Byte.x2a]))) /\
  (0 <= Z.of_N (Hash.bigEndian (repeat Byte.x00 31 ++ [Byte.x2a])) < 2 ^ 256)%Z.
Proof. apply HashFacts.generateSecret_value. reflexivity. Defined.
